(** * syz-hub: the corpus hub's RPC front end and its synchronisation state

    The development follows the repository's layering.

    - The argument and result records of the two RPC operations, as
      [syz-hub/hub.go] uses them.
    - [StateOps]: what [hub.go] consumes from package [syz-hub/state], the
      methods [Connect] and [Sync] of its [State].
    - [Connect] and [Sync]: the two methods of [Hub] in [syz-hub/hub.go].
    - The synchronisation state behind that interface.  Its Go source is not
      among the sources, so it is modelled from the written specification
      (sections 3 and 4).
    - The hub running on that state, histories of calls, and the example
      scenario of the specification.
    - The key table [main] builds from the configuration, and the dispatch
      of calls on any state package.
    - The OpenStack VM back end (package openstack): [sshArgs], [Forward],
      [waitInstanceBoot], [ctor], [Close] and [Copy], with what they do to
      the world recorded as a list of events. *)

From Stdlib Require Import Strings.Byte.
From stdpp Require Import base gmap sets list strings pretty.

#[local] Set Warnings "-clear-no-such-hyp".

(** Program bytes are Go's [[]byte]. *)
Abbreviation Prog := (list byte).

#[global] Instance byte_eq_decision : EqDecision byte := Byte.byte_eq_dec.

(** ** RPC records (package rpctype, as used by hub.go) *)

Module HubConnectArgs.
(** Fields read by [Hub.Connect]: [a.Name], [a.Key], [a.Fresh], [a.Calls],
    [a.Corpus]. *)
Record t : Type := mk {
  Name : string;
  Key : string;
  Fresh : bool;
  Calls : list string;
  Corpus : list Prog
}.
End HubConnectArgs.

Module HubSyncArgs.
(** Fields read by [Hub.Sync]: [a.Name], [a.Key], [a.Add], [a.Del]. *)
Record t : Type := mk {
  Name : string;
  Key : string;
  Add : list Prog;
  Del : list string
}.
End HubSyncArgs.

Module HubSyncRes.
(** The only field [Hub.Sync] writes: [r.Inputs]. *)
Record t : Type := mk { Inputs : list Prog }.
End HubSyncRes.

(** ** The interface of package state, as hub.go calls it

    [hub.st.Connect(a.Name, a.Fresh, a.Calls, a.Corpus)] returns an [error];
    [hub.st.Sync(a.Name, a.Add, a.Del)] returns [([][]byte, error)].  Both are
    methods on a pointer, so each also yields the state it leaves behind. *)

Class StateOps (St E : Type) : Type := {
  st_Connect : St → string → bool → list string → list Prog → St * option E;
  st_Sync : St → string → list Prog → list string → St * (list Prog * option E)
}.

(** ** syz-hub/hub.go *)

(** The two places an error value comes from in [hub.go]:
    [fmt.Errorf("unauthorized manager")] and the [err] handed up from the
    state package. *)
Inductive error (E : Type) : Type :=
  | Unauthorized : error E
  | StateError : E → error E.
Arguments Unauthorized {E}.
Arguments StateError {E} _.

(** One constructor per [Logf] call of [Connect] and [Sync], carrying the
    values each format string prints. *)
Inductive LogLine (E : Type) : Type :=
  | LogConnectUnauthorized (name : string)
  | LogConnect (name : string) (fresh : bool) (calls corpus : nat)
  | LogConnectError (err : E)
  | LogSyncUnauthorized (name : string)
  | LogSyncError (err : E)
  | LogSync (name : string) (add del new : nat).
Arguments LogConnectUnauthorized {E} _.
Arguments LogConnect {E} _ _ _ _.
Arguments LogConnectError {E} _.
Arguments LogSyncUnauthorized {E} _.
Arguments LogSyncError {E} _.
Arguments LogSync {E} _ _ _ _.

(** [type Hub struct { mu sync.Mutex; st *state.State; keys map[string]string }].
    Every call holds [mu] for its whole body after the key check, so a call is
    one transition of the record below. *)
Record Hub (St : Type) : Type := mkHub {
  st : St;
  keys : gmap string string
}.
Arguments mkHub {St} _ _.
Arguments st {St} _.
Arguments keys {St} _.

(** [main] fills [hub.keys] from the configuration,
    [for _, mgr := range cfg.Managers { hub.keys[mgr.Name] = mgr.Key }]:
    a later entry of the same name replaces an earlier one. *)
Definition make_keys (managers : list (string * string)) : gmap string string :=
  foldl (λ ks mgr, <[mgr.1 := mgr.2]> ks) ∅ managers.

(** Go's two-valued map read [key, ok := m[k]]: the zero value and [false]
    when [k] is absent. *)
Definition map_get (m : gmap string string) (k : string) : string * bool :=
  match m !! k with
  | Some v => (v, true)
  | None => (""%string, false)
  end.

Section hub_go.
Context {St E : Type} `{!StateOps St E}.

(** What a call leaves behind: the hub, the lines logged, the error. *)
Definition ConnectRet : Type := Hub St * list (LogLine E) * option (error E).
Definition SyncRet : Type :=
  Hub St * HubSyncRes.t * list (LogLine E) * option (error E).

(** [func (hub *Hub) Connect(a *HubConnectArgs, r *int) error]; [r] is
    neither read nor written. *)
Definition Connect (hub : Hub St) (a : HubConnectArgs.t) : ConnectRet :=
  let '(key, ok) := map_get (keys hub) (HubConnectArgs.Name a) in
  if negb ok || negb (String.eqb key (HubConnectArgs.Key a)) then
    (hub, [LogConnectUnauthorized (HubConnectArgs.Name a)], Some Unauthorized)
  else
    let line :=
      LogConnect (HubConnectArgs.Name a) (HubConnectArgs.Fresh a)
        (length (HubConnectArgs.Calls a)) (length (HubConnectArgs.Corpus a)) in
    match st_Connect (st hub) (HubConnectArgs.Name a) (HubConnectArgs.Fresh a)
            (HubConnectArgs.Calls a) (HubConnectArgs.Corpus a) with
    | (st', Some err) =>
        (mkHub st' (keys hub), [line; LogConnectError err], Some (StateError err))
    | (st', None) => (mkHub st' (keys hub), [line], None)
    end.

(** [func (hub *Hub) Sync(a *HubSyncArgs, r *HubSyncRes) error]. *)
Definition Sync (hub : Hub St) (a : HubSyncArgs.t) (r : HubSyncRes.t) : SyncRet :=
  let '(key, ok) := map_get (keys hub) (HubSyncArgs.Name a) in
  if negb ok || negb (String.eqb key (HubSyncArgs.Key a)) then
    (hub, r, [LogSyncUnauthorized (HubSyncArgs.Name a)], Some Unauthorized)
  else
    match st_Sync (st hub) (HubSyncArgs.Name a) (HubSyncArgs.Add a)
            (HubSyncArgs.Del a) with
    | (st', (inputs, Some err)) =>
        (mkHub st' (keys hub), r, [LogSyncError err], Some (StateError err))
    | (st', (inputs, None)) =>
        (mkHub st' (keys hub), HubSyncRes.mk inputs,
         [LogSync (HubSyncArgs.Name a) (length (HubSyncArgs.Add a))
            (length (HubSyncArgs.Del a)) (length inputs)],
         None)
    end.

End hub_go.

(** ** The synchronisation state (package syz-hub/state) *)

(** Modelled from the spec: the record [Input] of package syz-hub/state,
    whose source is missing.  Specification, section 3: an immutable record
    of identity (content hash of the program bytes), program bytes and
    required-call-set. *)
Record Input : Type := mkInput {
  identity : string;
  bytes : Prog;
  required : gset string
}.

(** Modelled from the spec: the record [Manager] of package syz-hub/state,
    whose source is missing.  Specification, section 3: fresh-flag,
    supported-call-set and known-set; the name is the key of the registry and
    the shared secret is held by [Hub.keys], where [hub.go] reads it. *)
Record Manager : Type := mkManager {
  fresh : bool;
  supported : gset string;
  known : gset string
}.

(** Modelled from the spec: the type [State] of package syz-hub/state, whose
    source is missing.  The Corpus Store keyed by content identity (section
    4.3) and the Manager Registry keyed by manager name (section 4.2),
    guarded together by the hub's lock. *)
Record State : Type := mkState {
  corpus : gmap string Input;
  managers : gmap string Manager
}.

#[global] Instance Input_eq_dec : EqDecision Input.
Proof. solve_decision. Defined.

(** The two answers of [Accept] (section 4.3). *)
Inductive Accepted : Type := NewlyAdded | AlreadyPresent.

(** Two call sets intersect. *)
Definition intersects (a b : gset string) : Prop := a ∩ b ≠ ∅.

#[global] Instance intersects_dec a b : Decision (intersects a b).
Proof. unfold intersects. apply _. Defined.

(** Modelled from the spec: [MarkKnown] of the Manager Registry, whose source
    is missing.  Section 4.2: adds the given identities to the manager's
    known-set.  A name without a record has no known-set to add to. *)
Definition add_known (ids : gset string) (m : Manager) : Manager :=
  mkManager (fresh m) (supported m) (known m ∪ ids).

Definition MarkKnown (reg : gmap string Manager) (name : string)
    (ids : gset string) : gmap string Manager :=
  alter (add_known ids) name reg.

(** Modelled from the spec: [MarkUnknown] of the Manager Registry, whose
    source is missing.  Section 4.2: removes the given identities from the
    manager's known-set. *)
Definition remove_known (ids : gset string) (m : Manager) : Manager :=
  mkManager (fresh m) (supported m) (known m ∖ ids).

Definition MarkUnknown (reg : gmap string Manager) (name : string)
    (ids : gset string) : gmap string Manager :=
  alter (remove_known ids) name reg.

(** Modelled from the spec: [Register] of the Manager Registry, whose source
    is missing.  Section 4.2: an unknown manager gets a new record with an
    empty known-set; a known one has its known-set reset to empty when the
    fresh flag is set; the supported-call-set is updated unconditionally. *)
Definition Register (reg : gmap string Manager) (name : string)
    (freshFlag : bool) (supportedCalls : gset string) : gmap string Manager :=
  match reg !! name with
  | None => <[name := mkManager freshFlag supportedCalls ∅]> reg
  | Some m =>
      <[name := mkManager freshFlag supportedCalls
                  (if freshFlag then ∅ else known m)]> reg
  end.

(** Modelled from the spec: [Accept] of the Corpus Store, whose source is
    missing.  Section 4.3: inserts an Input keyed by content identity;
    answers "already present" (a no-op, not an error) if the identity exists,
    else "newly added". *)
Definition Accept (c : gmap string Input) (inp : Input)
    : gmap string Input * Accepted :=
  match c !! identity inp with
  | Some _ => (c, AlreadyPresent)
  | None => (<[identity inp := inp]> c, NewlyAdded)
  end.

(** Modelled from the spec: [Delete] of the Corpus Store, whose source is
    missing.  Section 4.3: removes the Input if present; returns whether it
    existed. *)
Definition Delete (c : gmap string Input) (sig : string)
    : gmap string Input * bool :=
  (delete sig c, bool_decide (is_Some (c !! sig))).

(** Modelled from the spec: [Snapshot] of the Corpus Store, whose source is
    missing.  Section 4.3: the set of Input identities whose
    required-call-set intersects the call filter. *)
Definition Snapshot (c : gmap string Input) (callFilter : gset string)
    : gset string :=
  dom (filter (λ kv, intersects (required kv.2) callFilter) c).

(** The program bytes stored under a set of identities: a delta is returned
    as program bytes, not bare identities (section 4.4, step e). *)
Definition programs_of (c : gmap string Input) (ids : gset string) : list Prog :=
  omap (λ sig, bytes <$> c !! sig) (elements ids).

(** How many entries a store holds under an identity. *)
Definition entries_under (c : gmap string Input) (sig : string) : nat :=
  length (filter (λ kv, kv.1 = sig) (map_to_list c)).

(** Modelled from the spec: the identity set of the Global Corpus, which
    package syz-hub/state would hold.  It is the set of identities the Corpus
    Store holds ("inputs with no consumer are still retained", section 3; [Delete]
    is what removes an Input from the Global Corpus, section 4.3). *)
Definition corpus_ids (s : State) : gset string := dom (corpus s).

(** Modelled from the spec: a manager's known-set and supported-call-set as
    package syz-hub/state would hold them (section 3); both are empty for a
    name that has no record. *)
Definition known_of (s : State) (name : string) : gset string :=
  from_option known ∅ (managers s !! name).

Definition supported_of (s : State) (name : string) : gset string :=
  from_option supported ∅ (managers s !! name).

Section state.
(** Modelled from the spec: the content hash, the call analysis of programs
    and the durable write, which the missing package draws on.  Input
    identity is a pure function of the program bytes (section 3), and so is
    the set of calls a program exercises; the durable write is the
    persistence collaborator's and answers with an error when it fails
    (section 7). *)
Variable hash : Prog → string.
Variable calls_of : Prog → gset string.
Variable save : State → option string.

Definition mk_input (b : Prog) : Input := mkInput (hash b) b (calls_of b).

(** Modelled from the spec: step a of [Sync] in package syz-hub/state, whose
    source is missing.  Section 4.4: for each reported addition call
    [Accept]; if newly added, mark it known for the reporting manager. *)
Definition apply_add (name : string) (s : State) (b : Prog) : State :=
  match Accept (corpus s) (mk_input b) with
  | (c, NewlyAdded) => mkState c (MarkKnown (managers s) name {[hash b]})
  | (c, AlreadyPresent) => mkState c (managers s)
  end.

(** Modelled from the spec: step b of [Sync] in package syz-hub/state, whose
    source is missing.  Section 4.4: for each reported deletion call
    [Delete]; regardless of whether it existed globally, call [MarkUnknown]
    for the reporting manager. *)
Definition apply_del (name : string) (s : State) (sig : string) : State :=
  mkState (Delete (corpus s) sig).1 (MarkUnknown (managers s) name {[sig]}).

Definition sync_additions (name : string) (s : State) (add : list Prog) : State :=
  foldl (apply_add name) s add.

Definition sync_deletions (name : string) (s : State) (del : list string) : State :=
  foldl (apply_del name) s del.

(** Modelled from the spec: steps c, d and e of [Sync] in package
    syz-hub/state, whose source is missing.  Section 4.4: delta =
    Snapshot(manager.supportedCalls) − manager.knownSet; mark the delta
    known; return it as program bytes. *)
Definition delta_ids (name : string) (s : State) : gset string :=
  Snapshot (corpus s) (supported_of s name) ∖ known_of s name.

Definition sync_delta (name : string) (s : State) : State * list Prog :=
  let delta := delta_ids name s in
  (mkState (corpus s) (MarkKnown (managers s) name delta),
   programs_of (corpus s) delta).

(** Modelled from the spec: the in-memory part of [Sync] in package
    syz-hub/state, whose source is missing.  Section 4.4: additions are
    applied before deletions, and both before the delta is computed. *)
Definition sync_engine (s : State) (name : string) (add : list Prog)
    (del : list string) : State * list Prog :=
  sync_delta name (sync_deletions name (sync_additions name s add) del).

(** The caller's known-set after a Sync, from the one before it: the
    newly accepted additions join, the deletions leave, the delta joins. *)
Definition sync_known (s : State) (name : string) (add : list Prog)
    (del : list string) (k : gset string) : gset string :=
  ((k ∪ (list_to_set (hash <$> add) ∖ dom (corpus s))) ∖ list_to_set del)
  ∪ ((Snapshot (corpus s) (supported_of s name) ∖ known_of s name)
       ∖ list_to_set del).

(** Modelled from the spec: the in-memory part of [Connect] in package
    syz-hub/state, whose source is missing.  Section 4.4, step 1: register
    the manager with its declared capabilities and fresh flag; no corpus data
    is exchanged. *)
Definition connect_engine (s : State) (name : string) (freshFlag : bool)
    (calls : list string) : State :=
  mkState (corpus s) (Register (managers s) name freshFlag (list_to_set calls)).

(** Modelled from the spec: the method [Connect] of [State] of package syz-hub/state,
    whose source is missing.  The manager's corpus that [hub.go] hands over
    plays no part (section 4.4: no corpus data exchanged); a failed durable
    write is reported upward (sections 4.4 and 7). *)
Definition state_Connect (s : State) (name : string) (freshFlag : bool)
    (calls : list string) (_ : list Prog) : State * option string :=
  let s' := connect_engine s name freshFlag calls in
  (s', save s').

(** Modelled from the spec: the method [Sync] of [State] of package syz-hub/state, whose
    source is missing.  A failed durable write is reported upward and no
    delta is handed out (sections 4.4 and 7). *)
Definition state_Sync (s : State) (name : string) (add : list Prog)
    (del : list string) : State * (list Prog * option string) :=
  let '(s', delta) := sync_engine s name add del in
  match save s' with
  | Some err => (s', ([], Some err))
  | None => (s', (delta, None))
  end.

#[local] Instance state_ops : StateOps State string :=
  {| st_Connect := state_Connect; st_Sync := state_Sync |}.

(** ** The hub on that state, and histories of calls *)

Inductive Call : Type :=
  | CallConnect (a : HubConnectArgs.t)
  | CallSync (a : HubSyncArgs.t).

(** The identities a call reports as deleted. *)
Definition reported_deletions (c : Call) : list string :=
  match c with
  | CallConnect _ => []
  | CallSync a => HubSyncArgs.Del a
  end.

(** The manager a call comes from. *)
Definition caller (c : Call) : string :=
  match c with
  | CallConnect a => HubConnectArgs.Name a
  | CallSync a => HubSyncArgs.Name a
  end.

(** The secret a call presents, and whether the table accepts the call. *)
Definition presented (c : Call) : string :=
  match c with
  | CallConnect a => HubConnectArgs.Key a
  | CallSync a => HubSyncArgs.Key a
  end.

Definition authorized (table : gmap string string) (c : Call) : Prop :=
  table !! caller c = Some (presented c).

#[global] Instance authorized_dec table c : Decision (authorized table c).
Proof. unfold authorized. apply _. Defined.

(** The server serves one call: each RPC gets a reply value of its own. *)
Definition serve (hub : Hub State) (c : Call) : Hub State :=
  match c with
  | CallConnect a => (Connect hub a).1.1
  | CallSync a => (Sync hub a (HubSyncRes.mk [])).1.1.1
  end.

Definition serve_all (hub : Hub State) (cs : list Call) : Hub State :=
  foldl serve hub cs.

(** Every stored Input sits under its own identity, which is the hash of its
    bytes, and carries the calls of its bytes. *)
Definition wf_corpus (c : gmap string Input) : Prop :=
  map_Forall (λ sig inp, inp = mk_input (bytes inp) ∧ sig = hash (bytes inp)) c.

End state.


(** ** The example scenario of the specification (section 8) *)

Module scenario.
(** The identity of a program is its bytes read as a string: a pure and
    collision-free function of the bytes. *)
Definition hash (b : Prog) : string := String.string_of_list_byte b.

(** A program that starts with the byte 'w' exercises write, any other one
    open. *)
Definition calls_of (b : Prog) : gset string :=
  match b with
  | "w"%byte :: _ => {["write"%string]}
  | _ => {["open"%string]}
  end.

Definition disk_ok (_ : State) : option string := None.
Definition disk_full (_ : State) : option string := Some "disk full"%string.

Definition P1 : Prog := ["p"%byte; "1"%byte].
Definition P2 : Prog := ["w"%byte; "2"%byte].

Definition table : gmap string string :=
  make_keys [("A", "key-a"); ("B", "key-b")]%string.

Definition hub0 : Hub State := mkHub (mkState ∅ ∅) table.

Definition connectA_args : HubConnectArgs.t :=
  HubConnectArgs.mk "A" "key-a" true ["open"; "read"]%string [].
Definition connectB_args : HubConnectArgs.t :=
  HubConnectArgs.mk "B" "key-b" true ["open"; "read"; "write"]%string [].
Definition syncA_args (add : list Prog) (del : list string) : HubSyncArgs.t :=
  HubSyncArgs.mk "A" "key-a" add del.
Definition syncB_args (add : list Prog) (del : list string) : HubSyncArgs.t :=
  HubSyncArgs.mk "B" "key-b" add del.

Definition connectA : Call := CallConnect connectA_args.
Definition connectB : Call := CallConnect connectB_args.
Definition syncA (add : list Prog) (del : list string) : Call :=
  CallSync (syncA_args add del).
Definition syncB (add : list Prog) (del : list string) : Call :=
  CallSync (syncB_args add del).

(** The state package on a disk that takes every write, and on a full one. *)
Definition ops : StateOps State string := state_ops hash calls_of disk_ok.
Definition ops_disk_full : StateOps State string :=
  state_ops hash calls_of disk_full.

Definition run (hub : Hub State) (cs : list Call) : Hub State :=
  serve_all hash calls_of disk_ok hub cs.

(** A has added P1, B has connected and not yet synced. *)
Definition hub_P1 : Hub State := run hub0 [connectA; syncA [P1] []; connectB].

(** Both hold P1, then A reports it deleted. *)
Definition hub_P1_deleted : Hub State :=
  run hub0 [connectA; syncA [P1] []; connectB; syncB [] [];
            syncA [] [hash P1]].

(** Both hold P1. *)
Definition hub_P1_shared : Hub State :=
  run hub0 [connectA; syncA [P1] []; connectB; syncB [] []].

(** Both are connected, the corpus is empty. *)
Definition hub_connected : Hub State := run hub0 [connectA; connectB].

Definition no_reply : HubSyncRes.t := HubSyncRes.mk [].

(** Calls in A's name with a secret that is not A's. *)
Definition intruder_connect : HubConnectArgs.t :=
  HubConnectArgs.mk "A" "key-b" true ["open"]%string [].
Definition intruder_sync : HubSyncArgs.t :=
  HubSyncArgs.mk "A" "key-b" [P2] [hash P1].
End scenario.

(** ** hub.go: the configuration and the hub [main] builds *)

Module Config.
(** [type Config struct { Http, Rpc, Workdir string; Managers []struct{ Name,
    Key string } }]; a manager entry is the pair of its name and key. *)
Record t : Type := mk {
  Http : string;
  Rpc : string;
  Workdir : string;
  Managers : list (string * string)
}.

(** What [new(Config)] allocates. *)
Definition zero : t := mk "" "" "" [].
End Config.

(** The hub [main] builds from the loaded state and the configuration:
    [hub := &Hub{st: st, keys: make(map[string]string)}] followed by the loop
    over [cfg.Managers]. *)
Definition new_hub {St : Type} (s : St) (cfg : Config.t) : Hub St :=
  mkHub s (make_keys (Config.Managers cfg)).

Section dispatch.
Context {St E : Type} `{!StateOps St E}.

(** The RPC server hands each call to the method of the registered hub; a
    call gets a reply value of its own. *)
Definition dispatch (hub : Hub St) (c : Call) : Hub St :=
  match c with
  | CallConnect a => (Connect hub a).1.1
  | CallSync a => (Sync hub a (HubSyncRes.mk [])).1.1.1
  end.

Definition dispatch_all (hub : Hub St) (cs : list Call) : Hub St :=
  foldl dispatch hub cs.
End dispatch.

(** ** vm/openstack (the source file of package openstack) *)

Module vm.
(** The fields of [vm.Config] that package openstack reads. *)
Record Config : Type := mkConfig {
  Workdir : string;
  Image : string;
  MachineType : string;
  Netid : string;
  Name : string;
  Sshkey : string
}.
End vm.

Module openstack.

(** [type instance struct]; of the channel [closed] only whether it has been
    closed matters. *)
Record instance : Type := mkInstance {
  cfg : vm.Config;
  name : string;
  ip : string;
  offset : Z;
  sshKey : string;
  sshUser : string;
  workdir : string;
  closed : bool
}.

(** The two errors of [waitInstanceBoot]. *)
Inductive boot_error : Type := ShutdownInProgress | CantSsh.

(** One constructor per [Logf] call of the file. *)
Inductive Logged : Type :=
  | LogResult (result : list byte)
  | LogCmd (path : string) (args : list string)
  | LogIp (ip : string)
  | LogWaitBoot (name ip : string)
  | LogWaitFailed (name ip : string)
  | LogWaitEnd (name ip : string)
  | LogCopyArgs (args : list string).

(** What the file does to the world, in order: commands it runs
    ([CombinedOutput], or [Start] that succeeded), the five-second sleeps of
    [vm.SleepInterruptible], [os.RemoveAll], closing the channel, logging. *)
Inductive Event : Type :=
  | Exec (path : string) (args : list string)
  | Sleep5
  | RemoveAll (path : string)
  | CloseChan
  | Log (line : Logged).

#[global] Instance boot_error_eq_dec : EqDecision boot_error.
Proof. solve_decision. Defined.

#[global] Instance Logged_eq_dec : EqDecision Logged.
Proof. solve_decision. Defined.

#[global] Instance Event_eq_dec : EqDecision Event.
Proof. solve_decision. Defined.

(** [func sshArgs(sshKey, portArg string, port int) []string];
    [fmt.Sprint(port)] is the port in decimal. *)
Definition sshArgs (sshKey portArg : string) (port : Z) : list string :=
  [portArg; pretty port;
   "-i"; sshKey;
   "-F"; "/dev/null";
   "-o"; "UserKnownHostsFile=/dev/null";
   "-o"; "BatchMode=yes";
   "-o"; "IdentitiesOnly=yes";
   "-o"; "StrictHostKeyChecking=no";
   "-o"; "ConnectTimeout=5"]%string.

(** [func (inst *instance) Forward(port int) (string, error)]. *)
Definition Forward (inst : instance) (port : Z) : string * option string :=
  ("140.131.178.148" +:+ ":" +:+ pretty port, None).

(** The world [waitInstanceBoot] meets: whether the sleep of round [i] ran
    its course ([vm.SleepInterruptible] answered true) and whether the ssh
    command of round [i] ended without error. *)
Record BootEnv : Type := mkBootEnv {
  sleep_ok : nat → bool;
  ssh_ok : nat → bool
}.

(** The command of one round:
    [exec.Command("ssh", append(sshArgs(sshKey, "-p", 22), sshUser+"@"+ip, "pwd")...)]. *)
Definition boot_cmd (ip sshKey sshUser : string) : Event :=
  Exec "ssh" (sshArgs sshKey "-p" 22 ++ [sshUser +:+ "@" +:+ ip; "pwd"%string]).

(** The loop [for i := 0; i < 100; i++] with [n] rounds left at round [i]. *)
Fixpoint boot_rounds (env : BootEnv) (ip sshKey sshUser : string) (n i : nat)
    : list Event * option boot_error :=
  match n with
  | 0 => ([], Some CantSsh)
  | S n' =>
      if negb (sleep_ok env i) then ([Sleep5], Some ShutdownInProgress)
      else if ssh_ok env i then ([Sleep5; boot_cmd ip sshKey sshUser], None)
      else
        let '(evs, err) := boot_rounds env ip sshKey sshUser n' (S i) in
        (Sleep5 :: boot_cmd ip sshKey sshUser :: evs, err)
  end.

(** [func waitInstanceBoot(ip, sshKey, sshUser string) error]. *)
Definition waitInstanceBoot (env : BootEnv) (ip sshKey sshUser : string)
    : list Event * option boot_error :=
  boot_rounds env ip sshKey sshUser 100 0.

(** How a call of [ctor] ends: with an instance, with an error, or in the
    panic of indexing the submatches out of range. *)
Inductive ctor_result : Type :=
  | CtorOk (inst : instance)
  | CtorErr (err : boot_error)
  | CtorPanic.

(** The arguments of the [openstack server create] command. *)
Definition create_args (c : vm.Config) : list string :=
  ["server"; "create"; "-f"; "shell"; "--wait"; "--key-name"; "syzkaller";
   "--image"; vm.Image c; "--flavor"; vm.MachineType c;
   "--nic"; "net-id=" +:+ vm.Netid c; vm.Name c]%string.

(** [func (inst *instance) Close()].  [close] of a closed channel panics,
    which [None] stands for; [exec.Command] only builds the delete command,
    nothing starts it. *)
Definition Close (inst : instance) : option (instance * list Event) :=
  if closed inst then None
  else
    Some (mkInstance (cfg inst) (name inst) (ip inst) (offset inst)
            (sshKey inst) (sshUser inst) (workdir inst) true,
          [CloseChan; RemoveAll (vm.Workdir (cfg inst))]).

Section externals.
(** [re.FindStringSubmatch] for the compiled pattern of [ctor], and
    [filepath.Base]: both are the standard library's. *)
Variable FindStringSubmatch : string → list string.
Variable Base : string → string.

(** [func ctor(cfg *vm.Config) (vm.Instance, error)], given the output of the
    create command ([result, _ := cmd.CombinedOutput()]).  The deferred
    function removes the work directory unless [ok] was set. *)
Definition ctor (c : vm.Config) (result : list byte) (env : BootEnv)
    : ctor_result * list Event :=
  let create := Exec "openstack" (create_args c) in
  match FindStringSubmatch (String.string_of_list_byte result) !! 1 with
  | None => (CtorPanic, [create; RemoveAll (vm.Workdir c)])
  | Some ip' =>
      let before :=
        [create; Log (LogResult result);
         Log (LogCmd "openstack" (create_args c)); Log (LogIp ip');
         Log (LogWaitBoot (vm.Name c) ip')] in
      match waitInstanceBoot env ip' (vm.Sshkey c) "root" with
      | (evs, Some err) =>
          (CtorErr err,
           before ++ evs ++
             [Log (LogWaitFailed (vm.Name c) ip'); RemoveAll (vm.Workdir c)])
      | (evs, None) =>
          (CtorOk (mkInstance c (vm.Name c) ip' 0 (vm.Sshkey c) "root" "" false),
           before ++ evs ++ [Log (LogWaitEnd (vm.Name c) ip')])
      end
  end.

(** The arguments [Copy] hands to scp. *)
Definition copy_args (inst : instance) (hostSrc : string) : list string :=
  sshArgs (sshKey inst) "-P" 22 ++
    [hostSrc;
     sshUser inst +:+ "@" +:+ ip inst +:+ ":" +:+ ("./" +:+ Base hostSrc)].

(** [func (inst *instance) Copy(hostSrc string) (string, error)], given the
    errors of [cmd.Start] and of [cmd.Wait] (the latter also when the process
    was killed after a minute). *)
Definition Copy (inst : instance) (hostSrc : string)
    (start_err wait_err : option string)
    : (string * option string) * list Event :=
  let vmDst := "./" +:+ Base hostSrc in
  let args := copy_args inst hostSrc in
  match start_err with
  | Some err => ((""%string, Some err), [Log (LogCopyArgs args)])
  | None =>
      match wait_err with
      | Some err =>
          ((""%string, Some err), [Log (LogCopyArgs args); Exec "scp" args])
      | None => ((vmDst, None), [Log (LogCopyArgs args); Exec "scp" args])
      end
  end.
End externals.

(** Whether an event runs the [openstack] client. *)
Definition runs_openstack (e : Event) : bool :=
  match e with
  | Exec path _ => bool_decide (path = "openstack"%string)
  | _ => false
  end.

End openstack.

(** ** A configuration with the two managers of the example scenario *)

Module startup_example.
Definition config : Config.t :=
  Config.mk "" "" "" [("A", "key-a"); ("B", "key-b")]%string.
End startup_example.

(** ** A machine that boots in the third round *)

Module openstack_example.
Definition config : vm.Config :=
  vm.mkConfig "/tmp/syz-0" "debian" "m1.small" "net-7" "syz-0" "/keys/id_rsa".

(** The create command printed an address line, from which the pattern
    extracts 10.0.0.5. *)
Definition find (s : string) : list string := [s; "10.0.0.5"%string].

Definition boots_in_round_2 : openstack.BootEnv :=
  openstack.mkBootEnv (λ _, true) (λ i, bool_decide (i = 2)).

Definition machine : openstack.instance :=
  openstack.mkInstance config "syz-0" "10.0.0.5" 0 "/keys/id_rsa" "root" ""
    false.
End openstack_example.

(** * Facts *)

(** ** hub.go: the key check *)

Section hub_go_facts.
Context {St E : Type} `{!StateOps St E}.

(** The condition both methods test comes out false exactly when the name is
    in the table with that very secret. *)
Lemma key_check_false (hub : Hub St) (name key : string) :
  (let '(k, ok) := map_get (keys hub) name in
   negb ok || negb (String.eqb k key)) = false ↔ keys hub !! name = Some key.
Proof.
  unfold map_get.
  destruct (keys hub !! name) as [k|] eqn:Hk; simpl.
  - rewrite negb_false_iff, String.eqb_eq. split; congruence.
  - split; discriminate.
Qed.

Lemma Connect_unauthorized (hub : Hub St) (a : HubConnectArgs.t) :
  keys hub !! HubConnectArgs.Name a ≠ Some (HubConnectArgs.Key a) →
  Connect hub a =
    (hub, [LogConnectUnauthorized (HubConnectArgs.Name a)], Some Unauthorized).
Proof.
  intros Hno. unfold Connect.
  pose proof (key_check_false hub (HubConnectArgs.Name a) (HubConnectArgs.Key a)) as Hc.
  destruct (map_get (keys hub) (HubConnectArgs.Name a)) as [k ok].
  destruct (negb ok || negb (String.eqb k (HubConnectArgs.Key a))); [done|].
  exfalso. apply Hno, Hc. done.
Qed.

Lemma Connect_authorized (hub : Hub St) (a : HubConnectArgs.t) :
  keys hub !! HubConnectArgs.Name a = Some (HubConnectArgs.Key a) →
  st (Connect hub a).1.1 =
    (st_Connect (st hub) (HubConnectArgs.Name a) (HubConnectArgs.Fresh a)
       (HubConnectArgs.Calls a) (HubConnectArgs.Corpus a)).1 ∧
  keys (Connect hub a).1.1 = keys hub ∧
  (Connect hub a).2 =
    StateError <$>
    (st_Connect (st hub) (HubConnectArgs.Name a) (HubConnectArgs.Fresh a)
       (HubConnectArgs.Calls a) (HubConnectArgs.Corpus a)).2.
Proof.
  intros Hyes. unfold Connect.
  pose proof (key_check_false hub (HubConnectArgs.Name a) (HubConnectArgs.Key a)) as Hc.
  destruct (map_get (keys hub) (HubConnectArgs.Name a)) as [k ok].
  apply Hc in Hyes. rewrite Hyes.
  destruct (st_Connect _ _ _ _ _) as [st' [err|]]; done.
Qed.

Lemma Sync_unauthorized (hub : Hub St) (a : HubSyncArgs.t) (r : HubSyncRes.t) :
  keys hub !! HubSyncArgs.Name a ≠ Some (HubSyncArgs.Key a) →
  Sync hub a r =
    (hub, r, [LogSyncUnauthorized (HubSyncArgs.Name a)], Some Unauthorized).
Proof.
  intros Hno. unfold Sync.
  pose proof (key_check_false hub (HubSyncArgs.Name a) (HubSyncArgs.Key a)) as Hc.
  destruct (map_get (keys hub) (HubSyncArgs.Name a)) as [k ok].
  destruct (negb ok || negb (String.eqb k (HubSyncArgs.Key a))); [done|].
  exfalso. apply Hno, Hc. done.
Qed.

Lemma Sync_authorized (hub : Hub St) (a : HubSyncArgs.t) (r : HubSyncRes.t) :
  keys hub !! HubSyncArgs.Name a = Some (HubSyncArgs.Key a) →
  st (Sync hub a r).1.1.1 =
    (st_Sync (st hub) (HubSyncArgs.Name a) (HubSyncArgs.Add a)
       (HubSyncArgs.Del a)).1 ∧
  keys (Sync hub a r).1.1.1 = keys hub ∧
  (Sync hub a r).2 =
    StateError <$>
    (st_Sync (st hub) (HubSyncArgs.Name a) (HubSyncArgs.Add a)
       (HubSyncArgs.Del a)).2.2 ∧
  (Sync hub a r).1.1.2 =
    match (st_Sync (st hub) (HubSyncArgs.Name a) (HubSyncArgs.Add a)
             (HubSyncArgs.Del a)).2.2 with
    | None =>
        HubSyncRes.mk
          (st_Sync (st hub) (HubSyncArgs.Name a) (HubSyncArgs.Add a)
             (HubSyncArgs.Del a)).2.1
    | Some _ => r
    end.
Proof.
  intros Hyes. unfold Sync.
  pose proof (key_check_false hub (HubSyncArgs.Name a) (HubSyncArgs.Key a)) as Hc.
  destruct (map_get (keys hub) (HubSyncArgs.Name a)) as [k ok].
  apply Hc in Hyes. rewrite Hyes.
  destruct (st_Sync _ _ _ _) as [st' [inputs [err|]]]; done.
Qed.

(** C1.  For every Connect and every Sync call, the call gets past the key
    check (it does not answer Unauthorized) if and only if the claimed name
    is in the configured table and the presented secret is exactly the
    configured one; a call that fails the check answers Unauthorized, logs
    only the name, and hands back the hub (its state, hence every known-set
    and the corpus) and the reply unchanged. *)
Theorem C1_authentication (hub : Hub St) (ca : HubConnectArgs.t)
    (sa : HubSyncArgs.t) (r : HubSyncRes.t) :
  ((Connect hub ca).2 ≠ Some Unauthorized ↔
     keys hub !! HubConnectArgs.Name ca = Some (HubConnectArgs.Key ca)) ∧
  ((Sync hub sa r).2 ≠ Some Unauthorized ↔
     keys hub !! HubSyncArgs.Name sa = Some (HubSyncArgs.Key sa)) ∧
  ((Connect hub ca).2 = Some Unauthorized →
     Connect hub ca =
       (hub, [LogConnectUnauthorized (HubConnectArgs.Name ca)], Some Unauthorized)) ∧
  ((Sync hub sa r).2 = Some Unauthorized →
     Sync hub sa r =
       (hub, r, [LogSyncUnauthorized (HubSyncArgs.Name sa)], Some Unauthorized)).
Proof.
  assert (Hc : (Connect hub ca).2 ≠ Some Unauthorized ↔
     keys hub !! HubConnectArgs.Name ca = Some (HubConnectArgs.Key ca)).
  { destruct (decide (keys hub !! HubConnectArgs.Name ca
                      = Some (HubConnectArgs.Key ca))) as [Hy|Hn].
    - destruct (Connect_authorized hub ca Hy) as (_ & _ & ->).
      destruct (st_Connect _ _ _ _ _).2; simpl; (split; [by intros _|discriminate]).
    - rewrite (Connect_unauthorized hub ca Hn). simpl.
      split; [intros Hx; by destruct Hx|intros Hx; by destruct Hn]. }
  assert (Hs : (Sync hub sa r).2 ≠ Some Unauthorized ↔
     keys hub !! HubSyncArgs.Name sa = Some (HubSyncArgs.Key sa)).
  { destruct (decide (keys hub !! HubSyncArgs.Name sa
                      = Some (HubSyncArgs.Key sa))) as [Hy|Hn].
    - destruct (Sync_authorized hub sa r Hy) as (_ & _ & -> & _).
      destruct (st_Sync _ _ _ _).2.2; simpl; (split; [by intros _|discriminate]).
    - rewrite (Sync_unauthorized hub sa r Hn). simpl.
      split; [intros Hx; by destruct Hx|intros Hx; by destruct Hn]. }
  split; [exact Hc|]. split; [exact Hs|]. split.
  - intros Hu. apply Connect_unauthorized. intros Hy. by apply Hc in Hy.
  - intros Hu. apply Sync_unauthorized. intros Hy. by apply Hs in Hy.
Qed.

(** C2, as amended.  A Connect call answers Unauthorized when the name and
    secret do not match the table; when they match, it answers exactly what
    the state's Connect answers: success when that succeeds, and its error
    handed up when it fails. *)
Theorem C2_connect_outcomes (hub : Hub St) (a : HubConnectArgs.t) :
  (keys hub !! HubConnectArgs.Name a ≠ Some (HubConnectArgs.Key a) →
     (Connect hub a).2 = Some Unauthorized) ∧
  (keys hub !! HubConnectArgs.Name a = Some (HubConnectArgs.Key a) →
     (Connect hub a).2 =
       StateError <$>
       (st_Connect (st hub) (HubConnectArgs.Name a) (HubConnectArgs.Fresh a)
          (HubConnectArgs.Calls a) (HubConnectArgs.Corpus a)).2).
Proof.
  split.
  - intros Hn. by rewrite (Connect_unauthorized hub a Hn).
  - intros Hy. by destruct (Connect_authorized hub a Hy) as (_ & _ & ->).
Qed.

(** C10.  Whenever a Sync call answers with an error, be it Unauthorized
    or an error of the state's Sync, the reply it hands back is the reply it
    was given: [Inputs] is assigned only on the successful path. *)
Theorem C10_failed_sync_leaves_reply (hub : Hub St) (a : HubSyncArgs.t)
    (r : HubSyncRes.t) (err : error E) :
  (Sync hub a r).2 = Some err → (Sync hub a r).1.1.2 = r.
Proof.
  destruct (decide (keys hub !! HubSyncArgs.Name a
                    = Some (HubSyncArgs.Key a))) as [Hy|Hn].
  - destruct (Sync_authorized hub a r Hy) as (_ & _ & -> & ->).
    by destruct (st_Sync _ _ _ _).2.2.
  - by rewrite (Sync_unauthorized hub a r Hn).
Qed.

End hub_go_facts.

(** ** The registry and the store *)

Lemma add_known_empty (m : Manager) : add_known ∅ m = m.
Proof.
  destruct m as [f s k]. unfold add_known; simpl. f_equal.
  apply (right_id_L ∅ (∪)).
Qed.

Lemma remove_known_empty (m : Manager) : remove_known ∅ m = m.
Proof.
  destruct m as [f s k]. unfold remove_known; simpl. f_equal.
  apply difference_empty_L.
Qed.

Lemma elem_of_Snapshot (c : gmap string Input) (cf : gset string) (sig : string) :
  sig ∈ Snapshot c cf ↔ ∃ inp, c !! sig = Some inp ∧ intersects (required inp) cf.
Proof.
  unfold Snapshot. rewrite elem_of_dom. unfold is_Some.
  setoid_rewrite map_lookup_filter_Some. naive_solver.
Qed.

Lemma elem_of_programs_of (c : gmap string Input) (ids : gset string) (b : Prog) :
  b ∈ programs_of c ids ↔ ∃ sig inp, sig ∈ ids ∧ c !! sig = Some inp ∧ bytes inp = b.
Proof.
  unfold programs_of. rewrite list_elem_of_omap. split.
  - intros (sig & Hin & Hb). apply elem_of_elements in Hin.
    destruct (c !! sig) as [inp|] eqn:Hc; simplify_eq/=. eauto.
  - intros (sig & inp & Hin & Hc & <-). exists sig. rewrite elem_of_elements.
    by rewrite Hc.
Qed.

(** [Accept] twice: the second answer is "already present" and the store is
    the one the first call left. *)
Lemma Accept_again (c : gmap string Input) (inp : Input) :
  Accept (Accept c inp).1 inp = ((Accept c inp).1, AlreadyPresent).
Proof.
  unfold Accept. destruct (c !! identity inp) eqn:Hc; simpl.
  - by rewrite Hc.
  - by rewrite lookup_insert_eq.
Qed.

Lemma Accept_lookup (c : gmap string Input) (inp : Input) :
  is_Some ((Accept c inp).1 !! identity inp).
Proof.
  unfold Accept. destruct (c !! identity inp) eqn:Hc; simpl.
  - by rewrite Hc.
  - rewrite lookup_insert_eq. eauto.
Qed.

(** A store holds exactly one entry under an identity it holds at all. *)
Lemma one_entry_per_identity (c : gmap string Input) (sig : string) :
  is_Some (c !! sig) → entries_under c sig = 1.
Proof.
  intros [inp Hc]. unfold entries_under.
  assert (Hsplit : c = <[sig := inp]> (delete sig c))
    by (by rewrite insert_delete_eq, insert_id).
  rewrite Hsplit at 1.
  rewrite map_to_list_insert by apply lookup_delete_eq.
  rewrite filter_cons_True by done. simpl. f_equal.
  apply length_zero_iff_nil, elem_of_nil_inv. intros [k v] Hkv.
  apply list_elem_of_filter in Hkv as [Hk Hin]. simpl in Hk. subst k.
  apply elem_of_map_to_list in Hin. by rewrite lookup_delete_eq in Hin.
Qed.

Lemma at_most_one_entry (c : gmap string Input) (sig : string) :
  entries_under c sig ≤ 1.
Proof.
  destruct (c !! sig) as [inp|] eqn:Hc.
  - rewrite one_entry_per_identity; [done|eauto].
  - unfold entries_under.
    replace (filter (λ kv, kv.1 = sig) (map_to_list c))
      with (@nil (string * Input)); [simpl; lia|].
    symmetry. apply elem_of_nil_inv. intros [k v] Hkv.
    apply list_elem_of_filter in Hkv as [Hk Hin]. simpl in Hk. subst k.
    apply elem_of_map_to_list in Hin. congruence.
Qed.

Section state_facts.
Variable hash : Prog → string.
Variable calls_of : Prog → gset string.
Variable save : State → option string.

Local Abbreviation mk_input := (mk_input hash calls_of).
Local Abbreviation apply_add := (apply_add hash calls_of).
Local Abbreviation sync_additions := (sync_additions hash calls_of).
Local Abbreviation sync_engine := (sync_engine hash calls_of).
Local Abbreviation wf_corpus := (wf_corpus hash calls_of).
Local Abbreviation sync_known := (sync_known hash).

(** The identities of a list of programs. *)
Local Abbreviation hashes add := (list_to_set (hash <$> add) : gset string).

Lemma wf_corpus_empty : wf_corpus ∅.
Proof. apply map_Forall_empty. Qed.

(** *** Step a: additions *)

Lemma apply_add_corpus (name : string) (s : State) (b : Prog) :
  corpus (apply_add name s b) = (Accept (corpus s) (mk_input b)).1.
Proof. unfold apply_add. by destruct (Accept _ _) as [c []]. Qed.

Lemma sync_additions_lookup_Some name (s : State) (add : list Prog) sig inp :
  corpus s !! sig = Some inp →
  corpus (sync_additions name s add) !! sig = Some inp.
Proof.
  revert s. induction add as [|b add IH]; intros s Hs; [done|].
  apply IH. rewrite apply_add_corpus. unfold Accept; simpl.
  destruct (corpus s !! hash b) eqn:Hb; simpl; [done|].
  rewrite lookup_insert_ne; [done|]. intros <-. congruence.
Qed.

Lemma sync_additions_dom name (s : State) (add : list Prog) :
  dom (corpus (sync_additions name s add)) = dom (corpus s) ∪ hashes add.
Proof.
  revert s. induction add as [|b add IH]; intros s.
  - simpl. set_solver.
  - unfold sync_additions in *. simpl. rewrite IH, apply_add_corpus.
    unfold Accept; simpl. destruct (corpus s !! hash b) eqn:Hb; simpl.
    + apply elem_of_dom_2 in Hb. set_solver.
    + rewrite dom_insert_L. set_solver.
Qed.

Lemma sync_additions_wf name (s : State) (add : list Prog) :
  wf_corpus (corpus s) → wf_corpus (corpus (sync_additions name s add)).
Proof.
  revert s. induction add as [|b add IH]; intros s Hwf; [done|].
  apply IH. rewrite apply_add_corpus. unfold Accept; simpl.
  destruct (corpus s !! hash b) eqn:Hb; simpl; [done|].
  apply map_Forall_insert_2; [done|exact Hwf].
Qed.

Lemma sync_additions_managers name (s : State) (add : list Prog) :
  managers (sync_additions name s add) =
    alter (add_known (hashes add ∖ dom (corpus s))) name (managers s).
Proof.
  revert s. induction add as [|b add IH]; intros s.
  - replace (hashes [] ∖ dom (corpus s)) with (∅ : gset string) by set_solver.
    symmetry. apply alter_id. intros m _. apply add_known_empty.
  - unfold sync_additions in *. simpl. rewrite IH.
    unfold apply_add, Accept; simpl.
    destruct (corpus s !! hash b) eqn:Hb; simpl.
    + apply elem_of_dom_2 in Hb. f_equal. f_equal. set_solver.
    + apply not_elem_of_dom in Hb. unfold MarkKnown.
      rewrite alter_alter_eq. apply alter_ext. intros [f sp k] _.
      unfold add_known; simpl. f_equal. rewrite dom_insert_L.
      apply set_eq. intros x. destruct (decide (x = hash b)); set_solver.
Qed.

(** *** Step b: deletions *)

Lemma sync_deletions_lookup name (s : State) (del : list string) sig :
  corpus (sync_deletions name s del) !! sig =
    if decide (sig ∈ del) then None else corpus s !! sig.
Proof.
  revert s. induction del as [|d del IH]; intros s.
  - destruct (decide (sig ∈ [])) as [Hd|Hd]; [by apply elem_of_nil in Hd|done].
  - change (sync_deletions name s (d :: del))
      with (sync_deletions name (apply_del name s d) del).
    rewrite IH. unfold apply_del, Delete. cbn [corpus fst].
    rewrite lookup_delete.
    destruct (decide (sig ∈ del)), (decide (d = sig)), (decide (sig ∈ d :: del));
      set_solver.
Qed.

Lemma sync_deletions_managers name (s : State) (del : list string) :
  managers (sync_deletions name s del) =
    alter (remove_known (list_to_set del)) name (managers s).
Proof.
  revert s. induction del as [|d del IH]; intros s.
  - simpl. symmetry. apply alter_id. intros m _. apply remove_known_empty.
  - unfold sync_deletions in *. simpl. rewrite IH.
    unfold apply_del, MarkUnknown; simpl.
    rewrite alter_alter_eq. apply alter_ext. intros [f sp k] _.
    unfold remove_known; simpl. f_equal. set_solver.
Qed.

Lemma sync_deletions_wf name (s : State) (del : list string) :
  wf_corpus (corpus s) → wf_corpus (corpus (sync_deletions name s del)).
Proof.
  revert s. induction del as [|d del IH]; intros s Hwf; [done|].
  apply IH. unfold apply_del, Delete; simpl. by apply map_Forall_delete.
Qed.

(** *** The whole engine *)

Lemma sync_engine_corpus_lookup (s : State) name add del sig :
  corpus (sync_engine s name add del).1 !! sig =
    if decide (sig ∈ del) then None
    else corpus (sync_additions name s add) !! sig.
Proof. unfold sync_engine, sync_delta; simpl. apply sync_deletions_lookup. Qed.

Lemma sync_engine_corpus_dom (s : State) name add del :
  dom (corpus (sync_engine s name add del).1) =
    (dom (corpus s) ∪ hashes add) ∖ list_to_set del.
Proof.
  apply set_eq. intros sig.
  rewrite elem_of_dom, sync_engine_corpus_lookup.
  rewrite elem_of_difference, elem_of_list_to_set, <- (sync_additions_dom name).
  rewrite elem_of_dom. case_decide; [|tauto].
  split; [intros [? ?]; discriminate|tauto].
Qed.

Lemma sync_engine_wf (s : State) name add del :
  wf_corpus (corpus s) → wf_corpus (corpus (sync_engine s name add del).1).
Proof.
  intros Hwf. unfold sync_engine, sync_delta; simpl.
  by apply sync_deletions_wf, sync_additions_wf.
Qed.

(** The state on which the delta is computed. *)
Lemma pre_delta_supported (s : State) name add del :
  supported_of (sync_deletions name (sync_additions name s add) del) name
  = supported_of s name.
Proof.
  unfold supported_of.
  rewrite sync_deletions_managers, sync_additions_managers.
  rewrite !lookup_alter_eq. by destruct (managers s !! name).
Qed.

Lemma pre_delta_known (s : State) name add del :
  known_of (sync_deletions name (sync_additions name s add) del) name
  = from_option
      (λ m, (known m ∪ (hashes add ∖ dom (corpus s))) ∖ list_to_set del)
      ∅ (managers s !! name).
Proof.
  unfold known_of.
  rewrite sync_deletions_managers, sync_additions_managers.
  rewrite !lookup_alter_eq. by destruct (managers s !! name).
Qed.

Lemma Snapshot_no_calls (c : gmap string Input) : Snapshot c ∅ = ∅.
Proof.
  apply set_eq. intros sig. rewrite elem_of_Snapshot. unfold intersects.
  split; [intros (inp & _ & Hi); set_solver|set_solver].
Qed.

(** The delta in closed form: what the caller's capabilities select from
    the corpus as it stood before the call, less what the caller already knew
    then, less what this call deletes.  The call's own additions never reach
    it: a newly accepted one is marked known first, and one that was already
    stored is judged by the state before the call. *)
Lemma sync_engine_delta_ids (s : State) name add del :
  delta_ids name (sync_deletions name (sync_additions name s add) del)
  = (Snapshot (corpus s) (supported_of s name) ∖ known_of s name)
      ∖ list_to_set del.
Proof.
  unfold delta_ids. rewrite pre_delta_supported, pre_delta_known.
  unfold known_of, supported_of.
  destruct (managers s !! name) as [m|] eqn:Hm; simpl.
  2:{ rewrite !Snapshot_no_calls. set_solver. }
  apply set_eq. intros sig.
  rewrite !elem_of_difference, !elem_of_Snapshot, elem_of_list_to_set.
  setoid_rewrite sync_deletions_lookup.
  rewrite elem_of_union, elem_of_difference, elem_of_dom.
  destruct (decide (sig ∈ del)) as [Hd|Hd].
  { split; [intros [(inp & ? & _) _]; discriminate|tauto]. }
  destruct (corpus s !! sig) as [inp|] eqn:Hs.
  - setoid_rewrite (sync_additions_lookup_Some name s add sig inp Hs).
    split.
    + intros [Hsnap Hk]. split; [|done]. split; [done|]. intros Hin.
      apply Hk. split; [by left|done].
    + intros [[Hsnap Hk] _]. split; [done|]. intros [[Hin|[_ Hnew]] _].
      * done.
      * apply Hnew. eauto.
  - split.
    + intros [(inp & Hl & _) Hk]. exfalso. apply Hk. split; [|done]. right.
      split; [|by intros [? ?]].
      apply elem_of_dom_2 in Hl. rewrite sync_additions_dom in Hl.
      apply elem_of_union in Hl as [Hl|Hl]; [|done].
      apply elem_of_dom in Hl as [? ?]. congruence.
    + intros [[(inp & ? & _) _] _]. discriminate.
Qed.

(** The corpus entries the delta draws on are those of the state before the
    call. *)
Lemma elem_of_sync_engine_delta (s : State) name add del (b : Prog) :
  b ∈ (sync_engine s name add del).2 ↔
  ∃ sig inp, corpus s !! sig = Some inp ∧ bytes inp = b ∧
    intersects (required inp) (supported_of s name) ∧
    (sig ∉ known_of s name) ∧ (sig ∉ del).
Proof.
  unfold sync_engine, sync_delta; simpl. rewrite elem_of_programs_of.
  setoid_rewrite sync_engine_delta_ids.
  split.
  - intros (sig & inp & Hin & Hl & Hb).
    apply elem_of_difference in Hin as [Hin Hd].
    apply elem_of_difference in Hin as [Hsnap Hk].
    apply elem_of_Snapshot in Hsnap as (inp' & Hs & Hi).
    rewrite elem_of_list_to_set in Hd.
    rewrite sync_deletions_lookup, decide_False in Hl; [|done].
    rewrite (sync_additions_lookup_Some name s add sig inp' Hs) in Hl.
    simplify_eq. exists sig, inp. eauto.
  - intros (sig & inp & Hs & Hb & Hi & Hk & Hd). exists sig, inp.
    split; [|split; [|done]].
    + rewrite !elem_of_difference, elem_of_Snapshot, elem_of_list_to_set. eauto.
    + rewrite sync_deletions_lookup, decide_False; [|done].
      by apply sync_additions_lookup_Some.
Qed.

Lemma sync_engine_managers (s : State) name add del :
  managers (sync_engine s name add del).1 =
    alter (λ m, mkManager (fresh m) (supported m)
                  (sync_known s name add del (known m)))
      name (managers s).
Proof.
  unfold sync_engine, sync_delta, MarkKnown; simpl.
  rewrite sync_engine_delta_ids.
  rewrite sync_deletions_managers, sync_additions_managers.
  rewrite !alter_alter_eq. apply alter_ext. by intros [f sp k] _.
Qed.

Lemma sync_engine_known_of (s : State) name add del (n : string) :
  known_of (sync_engine s name add del).1 n =
    if decide (name = n) then
      from_option (λ m, sync_known s name add del (known m)) ∅ (managers s !! n)
    else known_of s n.
Proof.
  unfold known_of. rewrite sync_engine_managers, lookup_alter.
  case_decide; [subst; by destruct (managers s !! n)|done].
Qed.

(** *** Connect *)

Lemma connect_engine_lookup (s : State) name fr calls (n : string) :
  managers (connect_engine s name fr calls) !! n =
    if decide (name = n) then
      Some (mkManager fr (list_to_set calls)
              (if fr then ∅ else known_of s name))
    else managers s !! n.
Proof.
  unfold connect_engine, Register, known_of; simpl.
  destruct (managers s !! name) as [m|] eqn:Hm; simpl;
    rewrite lookup_insert; case_decide; try done.
  by destruct fr.
Qed.

Lemma connect_engine_known_of (s : State) name fr calls (n : string) :
  known_of (connect_engine s name fr calls) n =
    if decide (name = n) then (if fr then ∅ else known_of s name)
    else known_of s n.
Proof.
  unfold known_of at 1. rewrite connect_engine_lookup. by case_decide.
Qed.

Lemma connect_engine_supported_of (s : State) name fr calls :
  supported_of (connect_engine s name fr calls) name = list_to_set calls.
Proof.
  unfold supported_of. rewrite connect_engine_lookup. by rewrite decide_True.
Qed.

(** ** The hub on the state *)

Local Abbreviation hConnect := (Connect (StateOps0 := state_ops hash calls_of save)).
Local Abbreviation hSync := (Sync (StateOps0 := state_ops hash calls_of save)).
Local Abbreviation serve := (serve hash calls_of save).
Local Abbreviation serve_all := (serve_all hash calls_of save).

#[local] Hint Extern 0 (StateOps State _) =>
  exact (state_ops hash calls_of save) : typeclass_instances.

Lemma state_Sync_state (s : State) name add del :
  (state_Sync hash calls_of save s name add del).1
  = (sync_engine s name add del).1.
Proof.
  unfold state_Sync.
  destruct (sync_engine _ _ _ _) as [s' delta]. by destruct (save s').
Qed.

Lemma state_Sync_ok (s : State) name add del :
  (state_Sync hash calls_of save s name add del).2.2 = None →
  (state_Sync hash calls_of save s name add del).2.1
  = (sync_engine s name add del).2.
Proof.
  unfold state_Sync.
  destruct (sync_engine _ _ _ _) as [s' delta]. by destruct (save s').
Qed.

Lemma state_Sync_save_ok (s : State) name add del :
  save (sync_engine s name add del).1 = None →
  (state_Sync hash calls_of save s name add del).2.2 = None.
Proof.
  unfold state_Sync.
  destruct (sync_engine _ _ _ _) as [s' delta]. simpl. by intros ->.
Qed.

Lemma Connect_state (hub : Hub State) (a : HubConnectArgs.t) :
  keys hub !! HubConnectArgs.Name a = Some (HubConnectArgs.Key a) →
  st (hConnect hub a).1.1 =
    connect_engine (st hub) (HubConnectArgs.Name a) (HubConnectArgs.Fresh a)
      (HubConnectArgs.Calls a).
Proof. intros Hy. by destruct (Connect_authorized hub a Hy) as (-> & _). Qed.

Lemma Connect_ok (hub : Hub State) (a : HubConnectArgs.t) :
  (hConnect hub a).2 = None →
  keys hub !! HubConnectArgs.Name a = Some (HubConnectArgs.Key a).
Proof.
  intros Hok.
  destruct (decide (keys hub !! HubConnectArgs.Name a
                    = Some (HubConnectArgs.Key a))) as [Hy|Hn]; [done|].
  by rewrite (Connect_unauthorized hub a Hn) in Hok.
Qed.

Lemma Sync_state (hub : Hub State) (a : HubSyncArgs.t) (r : HubSyncRes.t) :
  keys hub !! HubSyncArgs.Name a = Some (HubSyncArgs.Key a) →
  st (hSync hub a r).1.1.1 =
    (sync_engine (st hub) (HubSyncArgs.Name a) (HubSyncArgs.Add a)
       (HubSyncArgs.Del a)).1.
Proof.
  intros Hy. destruct (Sync_authorized hub a r Hy) as (-> & _).
  apply state_Sync_state.
Qed.

(** A Sync call that answers without error went past the key check and
    hands out the delta the engine computed. *)
Lemma Sync_ok (hub : Hub State) (a : HubSyncArgs.t) (r : HubSyncRes.t) :
  (hSync hub a r).2 = None →
  keys hub !! HubSyncArgs.Name a = Some (HubSyncArgs.Key a) ∧
  HubSyncRes.Inputs (hSync hub a r).1.1.2 =
    (sync_engine (st hub) (HubSyncArgs.Name a) (HubSyncArgs.Add a)
       (HubSyncArgs.Del a)).2.
Proof.
  intros Hok.
  destruct (decide (keys hub !! HubSyncArgs.Name a
                    = Some (HubSyncArgs.Key a))) as [Hy|Hn].
  2:{ by rewrite (Sync_unauthorized hub a r Hn) in Hok. }
  split; [done|].
  destruct (Sync_authorized hub a r Hy) as (_ & _ & He & ->).
  rewrite He in Hok. apply fmap_None in Hok. rewrite Hok.
  by apply state_Sync_ok.
Qed.

(** With the key right and the durable write going through, a Sync call
    answers without error. *)
Lemma Sync_succeeds (hub : Hub State) (a : HubSyncArgs.t) (r : HubSyncRes.t) :
  keys hub !! HubSyncArgs.Name a = Some (HubSyncArgs.Key a) →
  save (sync_engine (st hub) (HubSyncArgs.Name a) (HubSyncArgs.Add a)
          (HubSyncArgs.Del a)).1 = None →
  (hSync hub a r).2 = None.
Proof.
  intros Hy Hsave. destruct (Sync_authorized hub a r Hy) as (_ & _ & -> & _).
  apply fmap_None. by apply state_Sync_save_ok.
Qed.

(** What serving one call does to the state: nothing when the key check
    fails, the engine's transition otherwise. *)
Lemma serve_cases (hub : Hub State) (c : Call) :
  st (serve hub c) = st hub ∨
  (∃ a, c = CallConnect a ∧
     st (serve hub c) =
       connect_engine (st hub) (HubConnectArgs.Name a) (HubConnectArgs.Fresh a)
         (HubConnectArgs.Calls a)) ∨
  (∃ a, c = CallSync a ∧
     st (serve hub c) =
       (sync_engine (st hub) (HubSyncArgs.Name a) (HubSyncArgs.Add a)
          (HubSyncArgs.Del a)).1).
Proof.
  destruct c as [a|a]; simpl.
  - destruct (decide (keys hub !! HubConnectArgs.Name a
                      = Some (HubConnectArgs.Key a))) as [Hy|Hn].
    + right; left. exists a. split; [done|]. by apply Connect_state.
    + left. by rewrite (Connect_unauthorized hub a Hn).
  - destruct (decide (keys hub !! HubSyncArgs.Name a
                      = Some (HubSyncArgs.Key a))) as [Hy|Hn].
    + right; right. exists a. split; [done|]. by apply Sync_state.
    + left. by rewrite (Sync_unauthorized hub a _ Hn).
Qed.

Lemma serve_keys (hub : Hub State) (c : Call) : keys (serve hub c) = keys hub.
Proof.
  destruct c as [a|a]; simpl.
  - destruct (decide (keys hub !! HubConnectArgs.Name a
                      = Some (HubConnectArgs.Key a))) as [Hy|Hn].
    + by destruct (Connect_authorized hub a Hy) as (_ & -> & _).
    + by rewrite (Connect_unauthorized hub a Hn).
  - destruct (decide (keys hub !! HubSyncArgs.Name a
                      = Some (HubSyncArgs.Key a))) as [Hy|Hn].
    + by destruct (Sync_authorized hub a (HubSyncRes.mk []) Hy) as (_ & -> & _).
    + by rewrite (Sync_unauthorized hub a _ Hn).
Qed.

Lemma serve_all_keys (hub : Hub State) (cs : list Call) :
  keys (serve_all hub cs) = keys hub.
Proof.
  revert hub. induction cs as [|c cs IH]; intros hub; [done|].
  change (serve_all hub (c :: cs)) with (serve_all (serve hub c) cs).
  by rewrite IH, serve_keys.
Qed.

Lemma serve_wf (hub : Hub State) (c : Call) :
  wf_corpus (corpus (st hub)) → wf_corpus (corpus (st (serve hub c))).
Proof.
  intros Hwf.
  destruct (serve_cases hub c) as [->|[(a & _ & ->)|(a & _ & ->)]];
    [done|done|by apply sync_engine_wf].
Qed.

Lemma serve_all_wf (hub : Hub State) (cs : list Call) :
  wf_corpus (corpus (st hub)) → wf_corpus (corpus (st (serve_all hub cs))).
Proof.
  revert hub. induction cs as [|c cs IH]; intros hub Hwf; [done|].
  apply IH. by apply serve_wf.
Qed.

(** Every state the hub reaches from an empty corpus is well formed. *)
Lemma reachable_wf (reg : gmap string Manager) (table : gmap string string)
    (cs : list Call) :
  wf_corpus (corpus (st (serve_all (mkHub (mkState ∅ reg) table) cs))).
Proof. apply serve_all_wf, wf_corpus_empty. Qed.

(** An Input stays where it is, unchanged, through any call that does not
    report its identity deleted. *)
Lemma serve_lookup_Some (hub : Hub State) (c : Call) sig inp :
  corpus (st hub) !! sig = Some inp →
  sig ∉ reported_deletions c →
  corpus (st (serve hub c)) !! sig = Some inp.
Proof.
  intros Hs Hd.
  destruct (serve_cases hub c) as [->|[(a & _ & ->)|(a & -> & ->)]];
    [done|done|].
  rewrite sync_engine_corpus_lookup, decide_False; [|done].
  by apply sync_additions_lookup_Some.
Qed.

Lemma serve_all_lookup_Some (hub : Hub State) (cs : list Call) sig inp :
  corpus (st hub) !! sig = Some inp →
  Forall (λ c, sig ∉ reported_deletions c) cs →
  corpus (st (serve_all hub cs)) !! sig = Some inp.
Proof.
  revert hub. induction cs as [|c cs IH]; intros hub Hs Hall; [done|].
  apply Forall_cons in Hall as [Hc Hall].
  apply IH; [|done]. by apply serve_lookup_Some.
Qed.

(** ** What a Sync call delivers *)

(** With every Input stored under the hash of its bytes, a delivered program
    is found in the corpus of before the call under its own identity. *)
Lemma delivered_program (s : State) name add del (b : Prog) :
  wf_corpus (corpus s) →
  b ∈ (sync_engine s name add del).2 →
  ∃ inp, corpus s !! hash b = Some inp ∧ bytes inp = b ∧
    intersects (required inp) (supported_of s name) ∧
    (hash b ∉ known_of s name) ∧ (hash b ∉ del).
Proof.
  intros Hwf Hb.
  apply elem_of_sync_engine_delta in Hb as (sig & inp & Hs & Hbytes & Hrest).
  destruct (map_Forall_lookup_1 _ _ _ _ Hwf Hs) as [_ Hsig].
  rewrite Hbytes in Hsig. subst sig. eauto.
Qed.


(** ** Accept *)


(** ** Fresh start *)


(** ** The corpus over a history *)

Lemma serve_unauthorized (hub : Hub State) (c : Call) :
  ¬ authorized (keys hub) c → serve hub c = hub.
Proof.
  unfold authorized. destruct c as [a|a]; simpl; intros Hn.
  - by rewrite (Connect_unauthorized hub a Hn).
  - by rewrite (Sync_unauthorized hub a _ Hn).
Qed.

Lemma serve_lookup_kept (hub : Hub State) (c : Call) sig inp :
  corpus (st hub) !! sig = Some inp →
  ¬ (authorized (keys hub) c ∧ sig ∈ reported_deletions c) →
  corpus (st (serve hub c)) !! sig = Some inp.
Proof.
  intros Hs Hno.
  destruct (decide (authorized (keys hub) c)) as [Hy|Hn].
  - apply serve_lookup_Some; [done|]. intros Hd. by apply Hno.
  - by rewrite (serve_unauthorized hub c Hn).
Qed.

Lemma serve_all_lookup_kept (hub : Hub State) (cs : list Call) sig inp :
  corpus (st hub) !! sig = Some inp →
  Forall (λ c, ¬ (authorized (keys hub) c ∧ sig ∈ reported_deletions c)) cs →
  corpus (st (serve_all hub cs)) !! sig = Some inp.
Proof.
  revert hub. induction cs as [|c cs IH]; intros hub Hs Hall; [done|].
  apply Forall_cons in Hall as [Hc Hall].
  change (serve_all hub (c :: cs)) with (serve_all (serve hub c) cs).
  apply IH; [by apply serve_lookup_kept|]. by rewrite serve_keys.
Qed.

(** C6.  Over any history of Connect and Sync calls in which no deletion
    is reported, the identity set of the corpus does not shrink.  More
    precisely, over any history an Input that was in the corpus and is no
    longer there unchanged has been named by the deletion report of a call
    that passed the key check. *)
Theorem C6_monotonic_corpus (hub : Hub State) (cs : list Call) :
  (Forall (λ c, reported_deletions c = []) cs →
   corpus_ids (st hub) ⊆ corpus_ids (st (serve_all hub cs))) ∧
  (∀ sig inp,
     corpus (st hub) !! sig = Some inp →
     corpus (st (serve_all hub cs)) !! sig ≠ Some inp →
     Exists (λ c, authorized (keys hub) c ∧ sig ∈ reported_deletions c) cs).
Proof.
  split.
  - intros Hnone sig Hin. unfold corpus_ids in *.
    apply elem_of_dom in Hin as [inp Hs]. apply elem_of_dom. exists inp.
    apply serve_all_lookup_Some; [done|].
    eapply Forall_impl; [exact Hnone|]. intros c -> Hd.
    by apply elem_of_nil in Hd.
  - intros sig inp Hs Hlost.
    destruct (decide (Exists
      (λ c, authorized (keys hub) c ∧ sig ∈ reported_deletions c) cs))
      as [Hex|Hnex]; [done|].
    exfalso. apply Hlost. apply serve_all_lookup_kept; [done|].
    apply Forall_forall. intros c Hc Hp. apply Hnex, Exists_exists. eauto.
Qed.

(** ** Known-sets *)

Lemma Snapshot_subseteq (c : gmap string Input) (cf : gset string) :
  Snapshot c cf ⊆ dom c.
Proof.
  intros sig Hin. apply elem_of_Snapshot in Hin as (inp & Hs & _).
  by apply elem_of_dom_2 in Hs.
Qed.

Lemma serve_authorized_cases (hub : Hub State) (c : Call) :
  authorized (keys hub) c →
  (∃ a, c = CallConnect a ∧
     st (serve hub c) =
       connect_engine (st hub) (HubConnectArgs.Name a) (HubConnectArgs.Fresh a)
         (HubConnectArgs.Calls a)) ∨
  (∃ a, c = CallSync a ∧
     st (serve hub c) =
       (sync_engine (st hub) (HubSyncArgs.Name a) (HubSyncArgs.Add a)
          (HubSyncArgs.Del a)).1).
Proof.
  unfold authorized. destruct c as [a|a]; simpl; intros Hy.
  - left. exists a. split; [done|]. by apply Connect_state.
  - right. exists a. split; [done|]. by apply Sync_state.
Qed.

(** The caller's known-set after a Sync stays within the corpus after it. *)
Lemma sync_known_within (s : State) name add del (k : gset string) :
  k ⊆ dom (corpus s) →
  sync_known s name add del k ⊆ dom (corpus (sync_engine s name add del).1).
Proof.
  intros Hk. rewrite sync_engine_corpus_dom. unfold sync_known.
  pose proof (Snapshot_subseteq (corpus s) (supported_of s name)) as Hsnap.
  set_solver.
Qed.


(** ** Deletion and convergence *)

Lemma Connect_corpus (hub : Hub State) (a : HubConnectArgs.t) :
  corpus (st (hConnect hub a).1.1) = corpus (st hub).
Proof.
  destruct (decide (keys hub !! HubConnectArgs.Name a
                    = Some (HubConnectArgs.Key a))) as [Hy|Hn].
  - by rewrite (Connect_state hub a Hy).
  - by rewrite (Connect_unauthorized hub a Hn).
Qed.

(** C8.  Delete removes the Input stored under the identity, if there is
    one, touches no other entry, and tells whether it existed.  So when a
    Sync call that passed the key check reports an identity deleted, the
    corpus no longer holds it, whatever the call filter of a later Snapshot,
    and a Connect (fresh or not) followed by a Sync of any manager returns a
    delta without a program of that identity. *)
Theorem C8_hub_wide_delete (hub : Hub State) (sig : string)
    (sa : HubSyncArgs.t) (ra : HubSyncRes.t)
    (cb : HubConnectArgs.t) (sb : HubSyncArgs.t) (rb : HubSyncRes.t) :
  ((Delete (corpus (st hub)) sig).1 !! sig = None ∧
   (∀ sig', sig' ≠ sig →
      (Delete (corpus (st hub)) sig).1 !! sig' = corpus (st hub) !! sig') ∧
   ((Delete (corpus (st hub)) sig).2 = true ↔ is_Some (corpus (st hub) !! sig))) ∧
  (wf_corpus (corpus (st hub)) →
   keys hub !! HubSyncArgs.Name sa = Some (HubSyncArgs.Key sa) →
   sig ∈ HubSyncArgs.Del sa →
   corpus (st (hSync hub sa ra).1.1.1) !! sig = None ∧
   (∀ cf, sig ∉ Snapshot (corpus (st (hSync hub sa ra).1.1.1)) cf) ∧
   ((hSync (hConnect (hSync hub sa ra).1.1.1 cb).1.1 sb rb).2 = None →
    ∀ b, b ∈ HubSyncRes.Inputs
               (hSync (hConnect (hSync hub sa ra).1.1.1 cb).1.1 sb rb).1.1.2 →
         hash b ≠ sig)).
Proof.
  split.
  - unfold Delete; simpl. split; [apply lookup_delete_eq|]. split.
    + intros sig' Hne. by apply lookup_delete_ne.
    + apply bool_decide_eq_true.
  - intros Hwf Hy Hd.
    assert (Hgone : corpus (st (hSync hub sa ra).1.1.1) !! sig = None).
    { rewrite (Sync_state hub sa ra Hy), sync_engine_corpus_lookup.
      by rewrite decide_True. }
    split; [done|]. split.
    + intros cf Hin. apply elem_of_Snapshot in Hin as (inp & Hs & _). congruence.
    + intros Hok b Hb. destruct (Sync_ok _ sb rb Hok) as [_ Hin].
      rewrite Hin in Hb.
      apply delivered_program in Hb as (inp & Hs & _).
      * rewrite Connect_corpus in Hs. congruence.
      * rewrite Connect_corpus, (Sync_state hub sa ra Hy).
        by apply sync_engine_wf.
Qed.

(** C9.  Convergence: after a Sync call of manager A that added input X
    and did not delete it, and any calls since that reported no deletion of
    X, a Sync call of manager B that does not delete X returns a delta that
    contains X, provided X's required calls intersect B's supported calls and
    X is not in B's known-set when the call arrives.  (X's identity is taken
    to be its own: no other program hashes to it.) *)
Theorem C9_convergence (hub : Hub State) (X : Prog)
    (sa : HubSyncArgs.t) (ra : HubSyncRes.t) (cs : list Call)
    (sb : HubSyncArgs.t) (rb : HubSyncRes.t) :
  wf_corpus (corpus (st hub)) →
  (∀ b, hash b = hash X → b = X) →
  (hSync hub sa ra).2 = None →
  X ∈ HubSyncArgs.Add sa →
  hash X ∉ HubSyncArgs.Del sa →
  Forall (λ c, hash X ∉ reported_deletions c) cs →
  (hSync (serve_all (hSync hub sa ra).1.1.1 cs) sb rb).2 = None →
  hash X ∉ HubSyncArgs.Del sb →
  intersects (calls_of X)
    (supported_of (st (serve_all (hSync hub sa ra).1.1.1 cs)) (HubSyncArgs.Name sb)) →
  hash X ∉ known_of (st (serve_all (hSync hub sa ra).1.1.1 cs)) (HubSyncArgs.Name sb) →
  X ∈ HubSyncRes.Inputs (hSync (serve_all (hSync hub sa ra).1.1.1 cs) sb rb).1.1.2.
Proof.
  intros Hwf Huniq Hoka HX Hda Hcs Hokb Hdb Hcalls Hunknown.
  destruct (Sync_ok hub sa ra Hoka) as [Hya _].
  set (hub1 := (hSync hub sa ra).1.1.1) in *.
  assert (Hwf1 : wf_corpus (corpus (st hub1))).
  { unfold hub1. rewrite (Sync_state hub sa ra Hya). by apply sync_engine_wf. }
  assert (H1 : corpus (st hub1) !! hash X = Some (mk_input X)).
  { assert (Hin : hash X ∈ dom (corpus (st hub1))).
    { unfold hub1. rewrite (Sync_state hub sa ra Hya), sync_engine_corpus_dom.
      rewrite elem_of_difference, elem_of_list_to_set, elem_of_union.
      split; [right|done]. rewrite elem_of_list_to_set.
      apply list_elem_of_fmap. eauto. }
    apply elem_of_dom in Hin as [inp Hs]. rewrite Hs. f_equal.
    destruct (map_Forall_lookup_1 _ _ _ _ Hwf1 Hs) as [Hinp Hsig].
    symmetry in Hsig. apply Huniq in Hsig. by rewrite Hinp, Hsig. }
  pose proof (serve_all_lookup_Some hub1 cs _ _ H1 Hcs) as H2.
  destruct (Sync_ok _ sb rb Hokb) as [_ ->].
  apply elem_of_sync_engine_delta. exists (hash X), (mk_input X).
  by repeat split.
Qed.

End state_facts.

(** * The example scenario, evaluated *)

(** Settle a decidable closed proposition by evaluating its decision. *)
Ltac evaluate := apply (bool_decide_unpack _); vm_compute; reflexivity.

Module scenario_facts.
Import scenario.

Lemma hash_inj (b X : Prog) : hash b = hash X → b = X.
Proof.
  unfold hash. intros Heq.
  rewrite <- (String.list_byte_of_string_of_list_byte b), Heq.
  apply String.list_byte_of_string_of_list_byte.
Qed.

End scenario_facts.

(** C1, at a Sync call in A's name with B's secret, where A and B hold P1:
    the call answers Unauthorized and hands back the hub as it was. *)
Lemma C1_witness :
  (Sync (StateOps0 := scenario.ops) scenario.hub_P1_shared
     scenario.intruder_sync scenario.no_reply).2 = Some Unauthorized ∧
  Sync (StateOps0 := scenario.ops) scenario.hub_P1_shared
    scenario.intruder_sync scenario.no_reply
  = (scenario.hub_P1_shared, scenario.no_reply,
     [LogSyncUnauthorized "A"%string], Some Unauthorized).
Proof.
  assert (Herr : (Sync (StateOps0 := scenario.ops) scenario.hub_P1_shared
     scenario.intruder_sync scenario.no_reply).2 = Some Unauthorized)
    by (vm_compute; reflexivity).
  split; [exact Herr|].
  destruct (C1_authentication (StateOps0 := scenario.ops)
              scenario.hub_P1_shared scenario.intruder_connect
              scenario.intruder_sync scenario.no_reply)
    as (_ & _ & _ & Hsync).
  exact (Hsync Herr).
Defined.

(** C2, at a Connect call in A's name with B's secret. *)
Lemma C2_witness :
  keys scenario.hub0 !! HubConnectArgs.Name scenario.intruder_connect
    ≠ Some (HubConnectArgs.Key scenario.intruder_connect) ∧
  (Connect (StateOps0 := scenario.ops) scenario.hub0
     scenario.intruder_connect).2 = Some Unauthorized.
Proof.
  assert (Hno : keys scenario.hub0 !! HubConnectArgs.Name scenario.intruder_connect
                  ≠ Some (HubConnectArgs.Key scenario.intruder_connect))
    by evaluate.
  split; [exact Hno|].
  destruct (C2_connect_outcomes (StateOps0 := scenario.ops) scenario.hub0
              scenario.intruder_connect) as [Hbad _].
  exact (Hbad Hno).
Defined.

(** C2 as stated fails: with the right key, Connect still answers with an
    error when the state's Connect reports one. *)
Lemma C2_counterexample :
  ¬ (∀ (hub : Hub State) (a : HubConnectArgs.t),
       keys hub !! HubConnectArgs.Name a = Some (HubConnectArgs.Key a) →
       (Connect (StateOps0 := scenario.ops_disk_full) hub a).2 = None).
Proof.
  intros Hall.
  specialize (Hall scenario.hub0 scenario.connectA_args).
  vm_compute in Hall. specialize (Hall eq_refl). discriminate.
Qed.






(** C6, at a history without deletions that starts where A has added P1. *)
Lemma C6_witness :
  Forall (λ c, reported_deletions c = [])
    [scenario.syncB [scenario.P2] []; scenario.syncA [] []] ∧
  corpus_ids (st scenario.hub_P1)
    ⊆ corpus_ids
        (st (serve_all scenario.hash scenario.calls_of scenario.disk_ok
               scenario.hub_P1
               [scenario.syncB [scenario.P2] []; scenario.syncA [] []])).
Proof.
  assert (Hnone : Forall (λ c, reported_deletions c = [])
            [scenario.syncB [scenario.P2] []; scenario.syncA [] []])
    by evaluate.
  split; [exact Hnone|].
  destruct (C6_monotonic_corpus scenario.hash scenario.calls_of
              scenario.disk_ok scenario.hub_P1
              [scenario.syncB [scenario.P2] []; scenario.syncA [] []])
    as [Hmono _].
  exact (Hmono Hnone).
Defined.


(** C8, at A's deletion of P1 once both managers hold it, followed by B's
    fresh Connect and Sync. *)
Lemma C8_witness :
  scenario.hash scenario.P1
    ∈ HubSyncArgs.Del (scenario.syncA_args [] [scenario.hash scenario.P1]) ∧
  corpus
    (st (Sync (StateOps0 := scenario.ops) scenario.hub_P1_shared
           (scenario.syncA_args [] [scenario.hash scenario.P1])
           scenario.no_reply).1.1.1)
    !! scenario.hash scenario.P1 = None ∧
  (∀ b,
     b ∈ HubSyncRes.Inputs
           (Sync (StateOps0 := scenario.ops)
              (Connect (StateOps0 := scenario.ops)
                 (Sync (StateOps0 := scenario.ops) scenario.hub_P1_shared
                    (scenario.syncA_args [] [scenario.hash scenario.P1])
                    scenario.no_reply).1.1.1
                 scenario.connectB_args).1.1
              (scenario.syncB_args [] []) scenario.no_reply).1.1.2 →
     scenario.hash b ≠ scenario.hash scenario.P1).
Proof.
  split; [evaluate|].
  destruct (C8_hub_wide_delete scenario.hash scenario.calls_of
              scenario.disk_ok scenario.hub_P1_shared
              (scenario.hash scenario.P1)
              (scenario.syncA_args [] [scenario.hash scenario.P1])
              scenario.no_reply scenario.connectB_args
              (scenario.syncB_args [] []) scenario.no_reply)
    as [_ Hwide].
  destruct Hwide as (Hgone & _ & Hdelta);
    [evaluate|vm_compute; reflexivity|evaluate|].
  split; [exact Hgone|]. apply Hdelta. vm_compute. reflexivity.
Defined.

(** C9, at A adding P1, A connecting again, and B's Sync after that. *)
Lemma C9_witness :
  scenario.P1 ∈ HubSyncArgs.Add (scenario.syncA_args [scenario.P1] []) ∧
  scenario.P1 ∈
    HubSyncRes.Inputs
      (Sync (StateOps0 := scenario.ops)
         (serve_all scenario.hash scenario.calls_of scenario.disk_ok
            (Sync (StateOps0 := scenario.ops) scenario.hub_connected
               (scenario.syncA_args [scenario.P1] []) scenario.no_reply).1.1.1
            [scenario.connectA])
         (scenario.syncB_args [] []) scenario.no_reply).1.1.2.
Proof.
  split; [evaluate|].
  apply (C9_convergence scenario.hash scenario.calls_of scenario.disk_ok
           scenario.hub_connected scenario.P1
           (scenario.syncA_args [scenario.P1] []) scenario.no_reply
           [scenario.connectA] (scenario.syncB_args [] []) scenario.no_reply).
  - evaluate.
  - intros b. apply scenario_facts.hash_inj.
  - vm_compute. reflexivity.
  - evaluate.
  - evaluate.
  - evaluate.
  - vm_compute. reflexivity.
  - evaluate.
  - evaluate.
  - evaluate.
Defined.

(** C10, at a Sync call whose durable write fails: the reply keeps the
    inputs it came with. *)
Lemma C10_witness :
  (Sync (StateOps0 := scenario.ops_disk_full) scenario.hub_connected
     (scenario.syncA_args [scenario.P1] [])
     (HubSyncRes.mk [scenario.P2])).2 = Some (StateError "disk full"%string) ∧
  (Sync (StateOps0 := scenario.ops_disk_full) scenario.hub_connected
     (scenario.syncA_args [scenario.P1] [])
     (HubSyncRes.mk [scenario.P2])).1.1.2 = HubSyncRes.mk [scenario.P2].
Proof.
  assert (Herr : (Sync (StateOps0 := scenario.ops_disk_full)
     scenario.hub_connected (scenario.syncA_args [scenario.P1] [])
     (HubSyncRes.mk [scenario.P2])).2 = Some (StateError "disk full"%string))
    by (vm_compute; reflexivity).
  split; [exact Herr|].
  exact (C10_failed_sync_leaves_reply (StateOps0 := scenario.ops_disk_full)
           scenario.hub_connected (scenario.syncA_args [scenario.P1] [])
           (HubSyncRes.mk [scenario.P2]) (StateError "disk full"%string) Herr).
Defined.

(** * Further facts about hub.go *)

(** ** The key table [main] builds *)

Lemma make_keys_snoc (ms : list (string * string)) (m : string * string) :
  make_keys (ms ++ [m]) = <[m.1 := m.2]> (make_keys ms).
Proof. unfold make_keys. by rewrite foldl_app. Qed.

(** The key [main] stores for a name is the key of the last entry the
    configuration has for that name; a name without an entry gets none. *)
Theorem make_keys_last_entry (ms : list (string * string)) (n : string) :
  make_keys ms !! n = snd <$> last (filter (λ m, m.1 = n) ms).
Proof.
  induction ms as [|m ms IH] using rev_ind; [done|].
  rewrite make_keys_snoc, filter_app, lookup_insert.
  destruct (decide (m.1 = n)) as [Hm|Hm].
  - rewrite filter_cons_True, filter_nil by done. by rewrite last_snoc.
  - rewrite filter_cons_False, filter_nil by done. by rewrite app_nil_r.
Qed.

Lemma make_keys_NoDup (ms : list (string * string)) (n k : string) :
  NoDup ms.*1 → make_keys ms !! n = Some k ↔ (n, k) ∈ ms.
Proof.
  induction ms as [|m ms IH] using rev_ind; intros Hnd.
  - split; [done|]. intros Hin. by apply elem_of_nil in Hin.
  - rewrite fmap_app in Hnd. apply NoDup_app in Hnd as (Hnd & Hfresh & _).
    rewrite make_keys_snoc, lookup_insert, elem_of_app, list_elem_of_singleton.
    destruct m as [n' k']; simpl in *. destruct (decide (n' = n)) as [->|Hne].
    + split; [intros [= ->]; by right|].
      intros [Hin|[= ->]]; [|done]. exfalso.
      apply (Hfresh n); [|set_solver].
      apply list_elem_of_fmap. by exists (n, k).
    + rewrite (IH Hnd). split; [by left|]. intros [Hin|[= -> ->]]; done.
Qed.

Section hub_go_more.
Context {St E : Type} `{!StateOps St E}.

Lemma Connect_passes_iff (hub : Hub St) (a : HubConnectArgs.t) :
  (Connect hub a).2 ≠ Some Unauthorized ↔
  keys hub !! HubConnectArgs.Name a = Some (HubConnectArgs.Key a).
Proof.
  destruct (decide (keys hub !! HubConnectArgs.Name a
                    = Some (HubConnectArgs.Key a))) as [Hy|Hn].
  - destruct (Connect_authorized hub a Hy) as (_ & _ & ->).
    destruct (st_Connect _ _ _ _ _).2; simpl; (split; [by intros _|discriminate]).
  - rewrite (Connect_unauthorized hub a Hn). simpl.
    split; [intros Hx; by destruct Hx|intros Hx; by destruct Hn].
Qed.

Lemma Sync_passes_iff (hub : Hub St) (a : HubSyncArgs.t) (r : HubSyncRes.t) :
  (Sync hub a r).2 ≠ Some Unauthorized ↔
  keys hub !! HubSyncArgs.Name a = Some (HubSyncArgs.Key a).
Proof.
  destruct (decide (keys hub !! HubSyncArgs.Name a
                    = Some (HubSyncArgs.Key a))) as [Hy|Hn].
  - destruct (Sync_authorized hub a r Hy) as (_ & _ & -> & _).
    destruct (st_Sync _ _ _ _).2.2; simpl; (split; [by intros _|discriminate]).
  - rewrite (Sync_unauthorized hub a r Hn). simpl.
    split; [intros Hx; by destruct Hx|intros Hx; by destruct Hn].
Qed.

(** On the hub [main] builds from a configuration whose manager names are
    distinct, a Connect or Sync call gets past the key check exactly when its
    name and secret are one of the configured pairs. *)
Theorem configured_pairs_pass (s : St) (cfg : Config.t)
    (ca : HubConnectArgs.t) (sa : HubSyncArgs.t) (r : HubSyncRes.t) :
  NoDup (Config.Managers cfg).*1 →
  ((Connect (new_hub s cfg) ca).2 ≠ Some Unauthorized ↔
     (HubConnectArgs.Name ca, HubConnectArgs.Key ca) ∈ Config.Managers cfg) ∧
  ((Sync (new_hub s cfg) sa r).2 ≠ Some Unauthorized ↔
     (HubSyncArgs.Name sa, HubSyncArgs.Key sa) ∈ Config.Managers cfg).
Proof.
  intros Hnd. rewrite Connect_passes_iff, Sync_passes_iff. simpl.
  by rewrite !(make_keys_NoDup _ _ _ Hnd).
Qed.

Lemma dispatch_keys (hub : Hub St) (c : Call) :
  keys (dispatch hub c) = keys hub.
Proof.
  destruct c as [a|a]; simpl.
  - destruct (decide (keys hub !! HubConnectArgs.Name a
                      = Some (HubConnectArgs.Key a))) as [Hy|Hn].
    + by destruct (Connect_authorized hub a Hy) as (_ & -> & _).
    + by rewrite (Connect_unauthorized hub a Hn).
  - destruct (decide (keys hub !! HubSyncArgs.Name a
                      = Some (HubSyncArgs.Key a))) as [Hy|Hn].
    + by destruct (Sync_authorized hub a (HubSyncRes.mk []) Hy) as (_ & -> & _).
    + by rewrite (Sync_unauthorized hub a _ Hn).
Qed.

Lemma dispatch_unauthorized (hub : Hub St) (c : Call) :
  ¬ authorized (keys hub) c → dispatch hub c = hub.
Proof.
  unfold authorized. destruct c as [a|a]; simpl; intros Hn.
  - by rewrite (Connect_unauthorized hub a Hn).
  - by rewrite (Sync_unauthorized hub a _ Hn).
Qed.

(** Whatever the state package does, no history of Connect and Sync calls
    changes the key table: the secrets in force are those of start-up. *)
Theorem keys_never_change (hub : Hub St) (cs : list Call) :
  keys (dispatch_all hub cs) = keys hub.
Proof.
  revert hub. induction cs as [|c cs IH]; intros hub; [done|].
  change (dispatch_all hub (c :: cs)) with (dispatch_all (dispatch hub c) cs).
  by rewrite IH, dispatch_keys.
Qed.

(** Calls that fail the key check leave no trace in the hub: a history ends
    in the same hub as the history of its calls that pass the check against
    the table of start-up. *)
Theorem rejected_calls_drop_out (hub : Hub St) (cs : list Call) :
  dispatch_all hub cs
  = dispatch_all hub (filter (λ c, authorized (keys hub) c) cs).
Proof.
  revert hub. induction cs as [|c cs IH]; intros hub; [done|].
  change (dispatch_all hub (c :: cs)) with (dispatch_all (dispatch hub c) cs).
  rewrite IH, dispatch_keys.
  destruct (decide (authorized (keys hub) c)) as [Hy|Hn].
  - by rewrite filter_cons_True.
  - rewrite filter_cons_False by done. by rewrite (dispatch_unauthorized hub c Hn).
Qed.

(** Sync never reads the reply it is handed: the hub, the log and the error
    it leaves are the same for any two replies, and when it succeeds so is the
    reply, whose former inputs are replaced, not extended. *)
Theorem Sync_overwrites_reply (hub : Hub St) (a : HubSyncArgs.t)
    (r1 r2 : HubSyncRes.t) :
  (Sync hub a r1).1.1.1 = (Sync hub a r2).1.1.1 ∧
  (Sync hub a r1).1.2 = (Sync hub a r2).1.2 ∧
  (Sync hub a r1).2 = (Sync hub a r2).2 ∧
  ((Sync hub a r1).2 = None → (Sync hub a r1).1.1.2 = (Sync hub a r2).1.1.2).
Proof.
  unfold Sync.
  destruct (map_get (keys hub) (HubSyncArgs.Name a)) as [k ok].
  destruct (negb ok || negb (String.eqb k (HubSyncArgs.Key a))); [done|].
  destruct (st_Sync _ _ _ _) as [s' [inputs [err|]]]; done.
Qed.

End hub_go_more.

(** * Facts about vm/openstack *)

Module openstack_facts.
Import openstack.

(** ** sshArgs and Forward *)

(** The argument list of [sshArgs] always has sixteen entries, and it tells
    its inputs apart: two calls give the same list only for the same key,
    the same port flag and the same port. *)
Theorem sshArgs_inj (k1 a1 : string) (p1 : Z) (k2 a2 : string) (p2 : Z) :
  length (sshArgs k1 a1 p1) = 16 ∧
  (sshArgs k1 a1 p1 = sshArgs k2 a2 p2 ↔ k1 = k2 ∧ a1 = a2 ∧ p1 = p2).
Proof.
  split; [done|]. split.
  - intros Heq. unfold sshArgs in Heq. by simplify_eq.
  - by intros (-> & -> & ->).
Qed.

(** [Forward] never fails, and its address is the fixed host followed by the
    port: it is the same for every instance, whatever its own [ip], and
    differs for different ports. *)
Theorem Forward_fixed_host (i1 i2 : instance) (p1 p2 : Z) :
  (Forward i1 p1).2 = None ∧
  (Forward i1 p1).1 = ("140.131.178.148:" +:+ pretty p1)%string ∧
  ((Forward i1 p1).1 = (Forward i2 p2).1 ↔ p1 = p2).
Proof.
  split; [done|]. split; [done|]. unfold Forward; simpl. split.
  - intros Heq. by simplify_eq.
  - by intros ->.
Qed.

(** ** waitInstanceBoot *)

Section boot.
Variable env : BootEnv.
Variables ip key user : string.

Lemma boot_rounds_ok (n i : nat) :
  (boot_rounds env ip key user n i).2 = None ↔
  ∃ r, r < n ∧ ssh_ok env (i + r) = true ∧
       ∀ j, j ≤ r → sleep_ok env (i + j) = true.
Proof.
  revert i. induction n as [|n IH]; intros i; simpl.
  - split; [discriminate|]. intros (r & Hr & _). lia.
  - destruct (sleep_ok env i) eqn:Hs; simpl.
    + destruct (ssh_ok env i) eqn:Hh; simpl.
      * split; [|done]. intros _. exists 0. rewrite Nat.add_0_r.
        split; [lia|]. split; [done|]. intros j Hj.
        by replace (i + j) with i by lia.
      * specialize (IH (S i)).
        destruct (boot_rounds env ip key user n (S i)) as [evs err].
        simpl in *. rewrite IH. split.
        -- intros (r & Hr & Hok & Hsl). exists (S r). split; [lia|].
           rewrite (Nat.add_succ_r i r). split; [done|].
           intros [|j] Hj; [by rewrite Nat.add_0_r|].
           rewrite (Nat.add_succ_r i j). apply Hsl. lia.
        -- intros ([|r] & Hr & Hok & Hsl).
           { rewrite Nat.add_0_r in Hok. congruence. }
           exists r. split; [lia|].
           rewrite <- (Nat.add_succ_r i r). split; [done|].
           intros j Hj. rewrite <- (Nat.add_succ_r i j). apply Hsl. lia.
    + split; [discriminate|]. intros (r & _ & _ & Hsl).
      specialize (Hsl 0). rewrite Nat.add_0_r, Hs in Hsl.
      by discriminate Hsl; lia.
Qed.

Lemma boot_rounds_shutdown (n i : nat) :
  (boot_rounds env ip key user n i).2 = Some ShutdownInProgress ↔
  ∃ r, r < n ∧ sleep_ok env (i + r) = false ∧
       ∀ j, j < r → sleep_ok env (i + j) = true ∧ ssh_ok env (i + j) = false.
Proof.
  revert i. induction n as [|n IH]; intros i; simpl.
  - split; [discriminate|]. intros (r & Hr & _). lia.
  - destruct (sleep_ok env i) eqn:Hs; simpl.
    + destruct (ssh_ok env i) eqn:Hh; simpl.
      * split; [discriminate|]. intros ([|r] & Hr & Hno & Hbefore).
        { rewrite Nat.add_0_r in Hno. congruence. }
        destruct (Hbefore 0) as [_ Hx]; [lia|].
        rewrite Nat.add_0_r in Hx. congruence.
      * specialize (IH (S i)).
        destruct (boot_rounds env ip key user n (S i)) as [evs err].
        simpl in *. rewrite IH. split.
        -- intros (r & Hr & Hno & Hbefore). exists (S r). split; [lia|].
           rewrite (Nat.add_succ_r i r). split; [done|].
           intros [|j] Hj; [by rewrite Nat.add_0_r|].
           rewrite (Nat.add_succ_r i j). apply Hbefore. lia.
        -- intros ([|r] & Hr & Hno & Hbefore).
           { rewrite Nat.add_0_r in Hno. congruence. }
           exists r. split; [lia|].
           rewrite <- (Nat.add_succ_r i r). split; [done|].
           intros j Hj. rewrite <- (Nat.add_succ_r i j).
           apply Hbefore. lia.
    + split; [|done]. intros _. exists 0. rewrite Nat.add_0_r.
      split; [lia|]. split; [done|]. intros j Hj. lia.
Qed.

Lemma boot_rounds_exhausted (n i : nat) :
  (boot_rounds env ip key user n i).2 = Some CantSsh ↔
  ∀ j, j < n → sleep_ok env (i + j) = true ∧ ssh_ok env (i + j) = false.
Proof.
  revert i. induction n as [|n IH]; intros i; simpl.
  - split; [|done]. intros _ j Hj. lia.
  - destruct (sleep_ok env i) eqn:Hs; simpl.
    + destruct (ssh_ok env i) eqn:Hh; simpl.
      * split; [discriminate|]. intros Hall.
        destruct (Hall 0) as [_ Hx]; [lia|].
        rewrite Nat.add_0_r in Hx. congruence.
      * specialize (IH (S i)).
        destruct (boot_rounds env ip key user n (S i)) as [evs err].
        simpl in *. rewrite IH. split.
        -- intros Hall [|j] Hj; [by rewrite Nat.add_0_r|].
           rewrite (Nat.add_succ_r i j). apply Hall. lia.
        -- intros Hall j Hj. rewrite <- (Nat.add_succ_r i j).
           apply Hall. lia.
    + split; [discriminate|]. intros Hall.
      destruct (Hall 0) as [Hx _]; [lia|].
      rewrite Nat.add_0_r in Hx. congruence.
Qed.

(** The events of the loop: a number of rounds of sleep and ssh, then one
    more sleep if that one was interrupted. *)
Lemma boot_rounds_trace (n i : nat) :
  ∃ a, a ≤ n ∧
    (boot_rounds env ip key user n i).1 =
      concat (replicate a [Sleep5; boot_cmd ip key user]) ++
      (if decide ((boot_rounds env ip key user n i).2 = Some ShutdownInProgress)
       then [Sleep5] else []) ∧
    ((boot_rounds env ip key user n i).2 = Some CantSsh → a = n) ∧
    ((boot_rounds env ip key user n i).2 = Some ShutdownInProgress → a < n) ∧
    ((boot_rounds env ip key user n i).2 = None → 0 < a).
Proof.
  revert i. induction n as [|n IH]; intros i; simpl.
  - exists 0. split; [lia|]. split; [done|]. split; [done|].
    split; discriminate.
  - destruct (sleep_ok env i) eqn:Hs; simpl.
    + destruct (ssh_ok env i) eqn:Hh; simpl.
      * exists 1. split; [lia|]. split; [done|]. split; [discriminate|].
        split; [discriminate|lia].
      * destruct (IH (S i)) as (a & Ha & Hevs & Hall & Hint & Hpos).
        destruct (boot_rounds env ip key user n (S i)) as [evs err].
        simpl in *. exists (S a). split; [lia|]. split.
        { rewrite Hevs. done. }
        split; [intros Herr; f_equal; by apply Hall|].
        split; [intros Herr; apply Hint in Herr; lia|lia].
    + exists 0. split; [lia|]. split; [done|]. split; [discriminate|].
      split; [lia|discriminate].
Qed.

(** [waitInstanceBoot] returns without error exactly when, within the 100
    rounds, some round's ssh command succeeds and no sleep up to and
    including that round is interrupted. *)
Theorem waitInstanceBoot_ok :
  (waitInstanceBoot env ip key user).2 = None ↔
  ∃ r, r < 100 ∧ ssh_ok env r = true ∧ ∀ j, j ≤ r → sleep_ok env j = true.
Proof. unfold waitInstanceBoot. by rewrite boot_rounds_ok. Qed.

(** The two errors of [waitInstanceBoot]: "shutdown in progress" exactly
    when a sleep within the 100 rounds is interrupted before any ssh command
    has succeeded, "can't ssh into the instance" exactly when all 100 sleeps
    run their course and all 100 ssh commands fail. *)
Theorem waitInstanceBoot_errors :
  ((waitInstanceBoot env ip key user).2 = Some ShutdownInProgress ↔
   ∃ r, r < 100 ∧ sleep_ok env r = false ∧
        ∀ j, j < r → sleep_ok env j = true ∧ ssh_ok env j = false) ∧
  ((waitInstanceBoot env ip key user).2 = Some CantSsh ↔
   ∀ j, j < 100 → sleep_ok env j = true ∧ ssh_ok env j = false).
Proof.
  unfold waitInstanceBoot.
  by rewrite boot_rounds_shutdown, boot_rounds_exhausted.
Qed.

(** [waitInstanceBoot] runs at most 100 ssh commands, each the same [pwd]
    probe on port 22 and each after a five-second sleep; it runs exactly 100
    when it gives up and at least one when it succeeds; an interrupted sleep
    is the last thing it does, so that it never sleeps more than 100 times. *)
Theorem waitInstanceBoot_trace :
  ∃ a, a ≤ 100 ∧
    (waitInstanceBoot env ip key user).1 =
      concat (replicate a
                [Sleep5;
                 Exec "ssh" (sshArgs key "-p" 22 ++
                             [user +:+ "@" +:+ ip; "pwd"%string])]) ++
      (if decide ((waitInstanceBoot env ip key user).2 = Some ShutdownInProgress)
       then [Sleep5] else []) ∧
    ((waitInstanceBoot env ip key user).2 = Some CantSsh → a = 100) ∧
    ((waitInstanceBoot env ip key user).2 = Some ShutdownInProgress → a < 100) ∧
    ((waitInstanceBoot env ip key user).2 = None → 0 < a).
Proof. apply boot_rounds_trace. Qed.

End boot.

(** ** ctor, Close and Copy *)

Lemma boot_rounds_kinds (env : BootEnv) (ip key user : string) (n i : nat) :
  Forall (λ e, e = Sleep5 ∨ e = boot_cmd ip key user)
    (boot_rounds env ip key user n i).1.
Proof.
  revert i. induction n as [|n IH]; intros i; simpl; [done|].
  destruct (sleep_ok env i); simpl; [|apply Forall_singleton; by left].
  destruct (ssh_ok env i); simpl.
  - apply Forall_cons. split; [by left|]. apply Forall_singleton. by right.
  - specialize (IH (S i)).
    destruct (boot_rounds env ip key user n (S i)) as [evs err].
    apply Forall_cons. split; [by left|].
    apply Forall_cons. split; [by right|done].
Qed.

Lemma filter_none {A} (P : A → Prop) `{!∀ x, Decision (P x)} (l : list A) :
  Forall (λ x, ¬ P x) l → filter P l = [].
Proof.
  induction 1 as [|x l Hx _ IH]; [done|].
  by rewrite filter_cons_False.
Qed.

Section ctor_facts.
Variable FindStringSubmatch : string → list string.
Variable Base : string → string.

Local Abbreviation ctor := (ctor FindStringSubmatch).
Local Abbreviation Copy := (Copy Base).

(** [ctor] removes the work directory exactly when it hands back no
    instance, be it for an error of the boot wait or for the panic on an
    output without address; removing it is then the last thing it does. *)
Theorem ctor_cleanup (c : vm.Config) (result : list byte) (env : BootEnv) :
  (RemoveAll (vm.Workdir c) ∈ (ctor c result env).2 ↔
   ∀ inst, (ctor c result env).1 ≠ CtorOk inst) ∧
  ((∀ inst, (ctor c result env).1 ≠ CtorOk inst) →
   last (ctor c result env).2 = Some (RemoveAll (vm.Workdir c))).
Proof.
  unfold openstack.ctor.
  destruct (FindStringSubmatch (String.string_of_list_byte result) !! 1)
    as [ip'|]; simpl.
  2:{ split; [|done]. split; [done|]. intros _. set_solver. }
  pose proof (boot_rounds_kinds env ip' (vm.Sshkey c) "root" 100 0) as Hkinds.
  unfold waitInstanceBoot.
  destruct (boot_rounds env ip' (vm.Sshkey c) "root" 100 0) as [evs [err|]];
    simpl in *.
  - split.
    + split; [done|]. intros _.
      do 5 apply list_elem_of_further.
      apply elem_of_app. right. set_solver.
    + intros _. by rewrite last_cons, last_app.
  - split.
    + split; [|intros Hno; by destruct (Hno _ eq_refl)].
      intros Hin. exfalso.
      repeat (apply elem_of_cons in Hin as [Hin|Hin]; [discriminate|]).
      apply elem_of_app in Hin as [Hin|Hin].
      * rewrite Forall_forall in Hkinds.
        destruct (Hkinds _ Hin) as [?|?]; discriminate.
      * apply list_elem_of_singleton in Hin. discriminate.
    + intros Hno. by destruct (Hno _ eq_refl).
Qed.

(** How [ctor] ends depends only on the text the create command printed and
    on the boot wait, not on whether that command succeeded.  It panics, with
    no ssh attempted, exactly when the text has no address to extract; it
    hands back an instance exactly when there is one and some ssh probe within
    the 100 rounds succeeds with no sleep interrupted up to it, and that
    instance is open, named as configured, and logs in as root. *)
Theorem ctor_outcome (c : vm.Config) (result : list byte) (env : BootEnv) :
  ((ctor c result env).1 = CtorPanic ↔
   FindStringSubmatch (String.string_of_list_byte result) !! 1 = None) ∧
  ((ctor c result env).1 = CtorPanic →
   (ctor c result env).2 =
     [Exec "openstack" (create_args c); RemoveAll (vm.Workdir c)]) ∧
  (∀ inst,
     (ctor c result env).1 = CtorOk inst ↔
     ∃ ip',
       FindStringSubmatch (String.string_of_list_byte result) !! 1 = Some ip' ∧
       (∃ r, r < 100 ∧ ssh_ok env r = true ∧
             ∀ j, j ≤ r → sleep_ok env j = true) ∧
       inst = mkInstance c (vm.Name c) ip' 0 (vm.Sshkey c) "root" "" false).
Proof.
  unfold openstack.ctor.
  destruct (FindStringSubmatch (String.string_of_list_byte result) !! 1)
    as [ip'|]; simpl.
  2:{ split; [done|]. split; [done|]. intros inst.
      split; [discriminate|]. by intros (? & ? & _). }
  pose proof (boot_rounds_ok env ip' (vm.Sshkey c) "root" 100 0) as Hok.
  unfold waitInstanceBoot.
  destruct (boot_rounds env ip' (vm.Sshkey c) "root" 100 0) as [evs [err|]];
    simpl in *.
  - split; [done|]. split; [discriminate|]. intros inst.
    split; [discriminate|]. intros (? & _ & Hr & _).
    apply Hok in Hr. discriminate.
  - split; [done|]. split; [discriminate|]. intros inst. split.
    + intros [= <-]. exists ip'. split; [done|]. split; [by apply Hok|done].
    + by intros (? & [= <-] & _ & ->).
Qed.

(** The life of an instance: once [ctor] has handed it back, [Close] closes
    it and removes the work directory, and a second [Close] panics.  From
    [ctor] to [Close] the openstack client is run once, to create the server:
    [Close] builds the delete command and never starts it. *)
Theorem instance_life (c : vm.Config) (result : list byte) (env : BootEnv)
    (inst : instance) :
  (ctor c result env).1 = CtorOk inst →
  ∃ inst',
    Close inst = Some (inst', [CloseChan; RemoveAll (vm.Workdir c)]) ∧
    Close inst' = None ∧
    filter (λ e, runs_openstack e = true)
      ((ctor c result env).2 ++ [CloseChan; RemoveAll (vm.Workdir c)])
    = [Exec "openstack" (create_args c)].
Proof.
  unfold openstack.ctor.
  destruct (FindStringSubmatch (String.string_of_list_byte result) !! 1)
    as [ip'|]; simpl; [|discriminate].
  pose proof (boot_rounds_kinds env ip' (vm.Sshkey c) "root" 100 0) as Hkinds.
  unfold waitInstanceBoot.
  destruct (boot_rounds env ip' (vm.Sshkey c) "root" 100 0) as [evs [err|]];
    simpl in *; [discriminate|].
  intros [= <-]. eexists. split; [done|]. split; [done|].
  rewrite filter_cons_True by done.
  do 4 (rewrite filter_cons_False by done).
  rewrite <- app_assoc, filter_app, (filter_none _ evs); [done|].
  eapply Forall_impl; [exact Hkinds|]. by intros e [->| ->].
Qed.

(** [Copy] succeeds exactly when scp both starts and ends without error;
    it then returns the destination "./" followed by the base name of the
    source, and on either failure it returns the empty string with the
    error.  scp is run, with the port flag -P 22, unless starting it failed. *)
Theorem Copy_result (inst : instance) (hostSrc : string)
    (start_err wait_err : option string) :
  ((Copy inst hostSrc start_err wait_err).1.2 = None ↔
   start_err = None ∧ wait_err = None) ∧
  ((Copy inst hostSrc start_err wait_err).1.1 =
     if decide ((Copy inst hostSrc start_err wait_err).1.2 = None)
     then "./" +:+ Base hostSrc else ""%string) ∧
  (Exec "scp"
     (sshArgs (sshKey inst) "-P" 22 ++
      [hostSrc;
       sshUser inst +:+ "@" +:+ ip inst +:+ ":./" +:+ Base hostSrc])
     ∈ (Copy inst hostSrc start_err wait_err).2 ↔ start_err = None).
Proof.
  unfold openstack.Copy, copy_args.
  destruct start_err as [e1|], wait_err as [e2|]; cbn [fst snd].
  - split; [split; [done|by intros [? _]]|]. split; [by case_decide|].
    split; [|done]. intros Hin. apply list_elem_of_singleton in Hin. discriminate.
  - split; [split; [done|by intros [? _]]|]. split; [by case_decide|].
    split; [|done]. intros Hin. apply list_elem_of_singleton in Hin. discriminate.
  - split; [split; [done|by intros [_ ?]]|]. split; [by case_decide|].
    split; [done|]. intros _. apply list_elem_of_further, list_elem_of_here.
  - split; [done|]. split; [by case_decide|].
    split; [done|]. intros _. apply list_elem_of_further, list_elem_of_here.
Qed.

End ctor_facts.

End openstack_facts.

(** * The further facts, evaluated *)

(** [configured_pairs_pass], at A's Connect on the hub built from the
    configuration of the two managers. *)
Lemma configured_pairs_pass_witness :
  NoDup (Config.Managers startup_example.config).*1 ∧
  (Connect (StateOps0 := scenario.ops)
     (new_hub (mkState ∅ ∅) startup_example.config)
     scenario.connectA_args).2 ≠ Some Unauthorized.
Proof.
  assert (Hnd : NoDup (Config.Managers startup_example.config).*1)
    by evaluate.
  split; [exact Hnd|].
  destruct (configured_pairs_pass (StateOps0 := scenario.ops)
              (mkState ∅ ∅) startup_example.config scenario.connectA_args
              (scenario.syncA_args [] []) scenario.no_reply Hnd)
    as [[_ Hpass] _].
  apply Hpass. evaluate.
Defined.

(** [instance_life], at the machine that boots in the third round. *)
Lemma instance_life_witness :
  (openstack.ctor openstack_example.find openstack_example.config []
     openstack_example.boots_in_round_2).1
  = openstack.CtorOk openstack_example.machine ∧
  ∃ inst',
    openstack.Close openstack_example.machine
    = Some (inst', [openstack.CloseChan; openstack.RemoveAll "/tmp/syz-0"]) ∧
    openstack.Close inst' = None ∧
    filter (λ e, openstack.runs_openstack e = true)
      ((openstack.ctor openstack_example.find openstack_example.config []
          openstack_example.boots_in_round_2).2 ++
       [openstack.CloseChan; openstack.RemoveAll "/tmp/syz-0"])
    = [openstack.Exec "openstack"
         (openstack.create_args openstack_example.config)].
Proof.
  assert (Hok : (openstack.ctor openstack_example.find
                   openstack_example.config []
                   openstack_example.boots_in_round_2).1
                = openstack.CtorOk openstack_example.machine)
    by (vm_compute; reflexivity).
  split; [exact Hok|].
  exact (openstack_facts.instance_life openstack_example.find
           openstack_example.config [] openstack_example.boots_in_round_2
           openstack_example.machine Hok).
Defined.
